(** * free-dev-space: the scanner, the matcher and the deletion executor

    A shallow embedding of the command line tool's core (the full program
    listing: [TARGETS], [isTargetMatch], [scan], [getDirSize],
    [deleteResults], [main]) over a model of the POSIX file system calls
    and of Node's [path] module that the program uses.  The shell that
    [getDirSize] hands its command line to is a parameter: it answers and
    may change the file system. *)

From Stdlib Require Import String Ascii ZArith Lia Bool.
From stdpp Require Import gmap strings list.
From Stdlib Require Import Permutation Sorted.

Set Warnings "-register-all".

Open Scope string_scope.
Open Scope list_scope.

(** ** Node's [path] module, POSIX flavour *)

Module Path.

(** [path.sep] *)
Definition sep : ascii := "/"%char.

(** [String.prototype.split(path.sep)]: the segments between separators;
    the empty string has the single segment [""]. *)
Fixpoint split (s : string) : list string :=
  match s with
  | EmptyString => [EmptyString]
  | String c s' =>
      if Ascii.eqb c sep then EmptyString :: split s'
      else match split s' with
           | [] => [String c EmptyString]
           | seg :: segs => String c seg :: segs
           end
  end.

(** [Array.prototype.join("/")] *)
Fixpoint join_segs (segs : list string) : string :=
  match segs with
  | [] => ""
  | [seg] => seg
  | seg :: rest => seg +:+ "/" +:+ join_segs rest
  end.

Definition isAbsolute (p : string) : bool :=
  match p with
  | String c _ => Ascii.eqb c sep
  | EmptyString => false
  end.

Fixpoint endsWithSep (p : string) : bool :=
  match p with
  | EmptyString => false
  | String c EmptyString => Ascii.eqb c sep
  | String _ p' => endsWithSep p'
  end.

(** One segment of [normalizeString]: [res] is the stack of segments kept
    so far, innermost first.  Empty segments and ["."] are dropped, [".."]
    pops a segment, or is kept when the path may climb above its start. *)
Definition normalize_step (allowAboveRoot : bool) (res : list string) (seg : string)
  : list string :=
  if String.eqb seg "" then res
  else if String.eqb seg "." then res
  else if String.eqb seg ".." then
    match res with
    | top :: rest =>
        if String.eqb top ".." then (if allowAboveRoot then ".." :: res else res)
        else rest
    | [] => if allowAboveRoot then [".."] else []
    end
  else seg :: res.

Definition normalize_segs (allowAboveRoot : bool) (p : string) : list string :=
  rev (fold_left (normalize_step allowAboveRoot) (split p) []).

Definition normalizeString (p : string) (allowAboveRoot : bool) : string :=
  join_segs (normalize_segs allowAboveRoot p).

(** [path.normalize] *)
Definition normalize (p : string) : string :=
  if String.eqb p "" then "."
  else
    let isAbs := isAbsolute p in
    let trailingSeparator := endsWithSep p in
    let p' := normalizeString p (negb isAbs) in
    if String.eqb p' "" then
      if isAbs then "/" else if trailingSeparator then "./" else "."
    else
      let p'' := if trailingSeparator then p' +:+ "/" else p' in
      if isAbs then "/" +:+ p'' else p''.

(** [path.join(a, b)]: the non-empty arguments joined by the separator,
    then normalized. *)
Definition join (a b : string) : string :=
  let joined :=
    if String.eqb a "" then b
    else if String.eqb b "" then a
    else a +:+ "/" +:+ b in
  if String.eqb joined "" then "." else normalize joined.

(** [path.basename(p)]: the last non-empty segment, [""] when there is none. *)
Definition basename (p : string) : string :=
  List.last (List.filter (fun seg => negb (String.eqb seg "")) (split p)) "".

(** The segments of an absolute path after resolution against the working
    directory [cwd]: what [path.resolve] keeps, and also the components the
    kernel walks through when it is handed [p]. *)
Definition resolve_segs (cwd p : string) : list string :=
  normalize_segs false (if isAbsolute p then p else cwd +:+ "/" +:+ p).

(** [path.resolve(p)] with [process.cwd() = cwd] *)
Definition resolve (cwd p : string) : string :=
  "/" +:+ join_segs (resolve_segs cwd p).

(** The absolute path with the given components. *)
Definition render (comps : list string) : string := "/" +:+ join_segs comps.

(** The components of a path: its non-empty segments. *)
Definition components (p : string) : list string :=
  List.filter (fun seg => negb (String.eqb seg "")) (split p).

(** [q] lies strictly below [p]: the components of [p] are a proper
    prefix of those of [q]. *)
Fixpoint strict_prefixb (a b : list string) : bool :=
  match a, b with
  | [], [] => false
  | [], _ :: _ => true
  | x :: a', y :: b' => String.eqb x y && strict_prefixb a' b'
  | _ :: _, [] => false
  end.

Definition isStrictDescendant (p q : string) : bool :=
  strict_prefixb (components p) (components q).

(** A directory entry name as [readdir] can return it: not empty, not
    ["."] or [".."], and without separator. *)
Definition plain (name : string) : bool :=
  negb (String.eqb name "") && negb (String.eqb name ".")
  && negb (String.eqb name "..")
  && match split name with [_] => true | _ => false end.

(** An absolute, normalized path: one that [path.resolve] returns
    unchanged. *)
Definition isResolved (p : string) : bool := String.eqb (resolve "" p) p.

End Path.

(** ** The file system *)

Module Fs.

Inductive Errno := ENOENT | EACCES | ENOTDIR | EPERM | EBUSY.

(** The result of a call that may throw. *)
Inductive outcome (A : Type) :=
| Returned (a : A)
| Thrown (e : Errno).
Arguments Returned {A} a.
Arguments Thrown {A} e.

Record Perm := mkPerm { p_r : bool; p_w : bool; p_x : bool }.

(** A file system object.  A symbolic link points out of the modelled tree,
    to a regular file ([target_exists = true]) or to nothing; links to
    directories are not part of the model, so no two paths name the same
    object. *)
Inductive node :=
| File (size : Z)
| Symlink (target_exists : bool)
| Dir (perm : Perm) (entries : list (string * node)).

Record world := mkWorld { root : node; cwd : string }.

Inductive Kind := KFile | KDir | KLink.

(** [fs.Dirent] *)
Record Dirent := mkDirent { d_name : string; d_kind : Kind }.

Definition isDirectory (e : Dirent) : bool :=
  match d_kind e with KDir => true | _ => false end.
Definition isFile (e : Dirent) : bool :=
  match d_kind e with KFile => true | _ => false end.
Definition isSymbolicLink (e : Dirent) : bool :=
  match d_kind e with KLink => true | _ => false end.

Definition kind_of (n : node) : Kind :=
  match n with
  | File _ => KFile
  | Symlink _ => KLink
  | Dir _ _ => KDir
  end.

Fixpoint find_entry (name : string) (es : list (string * node)) : option node :=
  match es with
  | [] => None
  | (nm, ch) :: rest => if String.eqb nm name then Some ch else find_entry name rest
  end.

(** Path resolution from a directory along components; every directory
    passed through must be searchable.  The last component is not
    dereferenced (as [lstat] sees it). *)
Fixpoint lookup (n : node) (comps : list string) : outcome node :=
  match comps with
  | [] => Returned n
  | c :: cs =>
      match n with
      | Dir p es =>
          if p_x p then
            match find_entry c es with
            | Some ch => lookup ch cs
            | None => Thrown ENOENT
            end
          else Thrown EACCES
      | File _ => Thrown ENOTDIR
      | Symlink true => Thrown ENOTDIR
      | Symlink false => Thrown ENOENT
      end
  end.

(** What a path names, the way [lstat] resolves it: relative paths start at
    the working directory, the empty path names nothing.  The text is
    resolved first (as [path.resolve] does it), then looked up; on the
    resolved paths that the program passes this is the lookup of the
    kernel, component by component. *)
Definition lstat (w : world) (p : string) : outcome node :=
  if String.eqb p "" then Thrown ENOENT
  else lookup (root w) (Path.resolve_segs (cwd w) p).

(** [fs.accessSync(p, fs.constants.F_OK)]: returns when [p] names an
    existing object of any type (a final symbolic link is followed),
    throws otherwise. *)
Definition accessSync (w : world) (p : string) : outcome unit :=
  match lstat w p with
  | Returned (Symlink false) => Thrown ENOENT
  | Returned _ => Returned tt
  | Thrown e => Thrown e
  end.

(** [fs.readdirSync(p, { withFileTypes: true })] *)
Definition readdirSync (w : world) (p : string) : outcome (list Dirent) :=
  match lstat w p with
  | Returned (Dir perm es) =>
      if p_r perm then Returned (map (fun e => mkDirent (fst e) (kind_of (snd e))) es)
      else Thrown EACCES
  | Returned (File _) => Thrown ENOTDIR
  | Returned (Symlink true) => Thrown ENOTDIR
  | Returned (Symlink false) => Thrown ENOENT
  | Thrown e => Thrown e
  end.

(** [fs.statSync(p)]: like [lstat], but a final symbolic link is followed. *)
Definition statSync (w : world) (p : string) : outcome Kind :=
  match lstat w p with
  | Returned (Symlink true) => Returned KFile
  | Returned (Symlink false) => Thrown ENOENT
  | Returned n => Returned (kind_of n)
  | Thrown e => Thrown e
  end.

Definition remove_entry (name : string) (es : list (string * node))
  : list (string * node) :=
  List.filter (fun e => negb (String.eqb (fst e) name)) es.

Fixpoint replace_entry (name : string) (n : node) (es : list (string * node))
  : list (string * node) :=
  match es with
  | [] => []
  | (nm, ch) :: rest =>
      if String.eqb nm name then (nm, n) :: rest
      else (nm, ch) :: replace_entry name n rest
  end.

(** The loop over the entries of a directory that is being emptied:
    [rm] empties one entry; the loop stops at the first entry that cannot
    be removed and returns the entries that are left. *)
Fixpoint rm_children (rm : node -> option node) (es : list (string * node))
  : list (string * node) :=
  match es with
  | [] => []
  | e :: rest =>
      match rm (snd e) with
      | None => rm_children rm rest
      | Some ch' => (fst e, ch') :: rest
      end
  end.

(** Emptying an object before it is unlinked: files and links have nothing
    to empty; the entries of a directory are removed one after the other,
    which needs the directory to be readable, writable and searchable.
    [None] when nothing is left, otherwise what is left of the object. *)
Fixpoint rimraf (n : node) : option node :=
  match n with
  | File _ => None
  | Symlink _ => None
  | Dir p es =>
      match es with
      | [] => None
      | _ :: _ =>
          if p_r p && p_w p && p_x p then
            match rm_children rimraf es with
            | [] => None
            | remaining => Some (Dir p remaining)
            end
          else Some n
      end
  end.

(** Removal of the object named by the components [comps] below [n]:
    the outcome and what [n] has become.  A path that names nothing
    ([ENOENT]) is no error, as [force: true] asks. *)
Fixpoint remove_at (n : node) (comps : list string) : outcome unit * node :=
  match comps with
  | [] => (Thrown EBUSY, n)
  | c :: cs =>
      match n with
      | Dir p es =>
          if p_x p then
            match find_entry c es with
            | None => (Returned tt, n)
            | Some ch =>
                match cs with
                | [] =>
                    if p_w p then
                      match rimraf ch with
                      | None => (Returned tt, Dir p (remove_entry c es))
                      | Some ch' => (Thrown EACCES, Dir p (replace_entry c ch' es))
                      end
                    else (Thrown EACCES, n)
                | _ :: _ =>
                    let (o, ch') := remove_at ch cs in
                    (o, Dir p (replace_entry c ch' es))
                end
            end
          else (Thrown EACCES, n)
      | File _ => (Thrown ENOTDIR, n)
      | Symlink true => (Thrown ENOTDIR, n)
      | Symlink false => (Returned tt, n)
      end
  end.

(** [fs.rmSync(p, { recursive: true, force: true })]: the outcome and the
    file system it leaves. *)
Definition rmSync (w : world) (p : string) : outcome unit * world :=
  if String.eqb p "" then (Returned tt, w)
  else
    let (o, root') := remove_at (root w) (Path.resolve_segs (cwd w) p) in
    (o, mkWorld root' (cwd w)).

End Fs.

Import Fs.

(** ** Target definitions *)

Inductive Strategy :=
| direct
| parent (p : string)
| parentPath (parents : string * string)
| sibling (s : string).

(** An entry of [TARGETS]: [{ name, match, ... }] with the parameters of
    its strategy. *)
Record Target := mkTarget { t_name : string; t_match : Strategy }.

Definition TARGETS : list Target :=
  [ mkTarget "node_modules" direct;
    mkTarget "Pods" (parent "ios");
    mkTarget ".next" direct;
    mkTarget ".nuxt" direct;
    mkTarget ".gradle" (parent "android");
    mkTarget "build" (parentPath ("android", "app"));
    mkTarget ".cxx" (parentPath ("android", "app"));
    mkTarget "dist" direct;
    mkTarget "vendor" (sibling "Gemfile");
    mkTarget ".build" direct;
    mkTarget "target" (sibling "Cargo.toml");
    mkTarget "__pycache__" direct;
    mkTarget ".venv" direct;
    mkTarget "venv" direct;
    mkTarget ".dart_tool" direct;
    mkTarget ".turbo" direct;
    mkTarget ".parcel-cache" direct ].

Definition TARGET_NAMES : gset string := list_to_set (map t_name TARGETS).

(** Dirs to never recurse into (besides matched targets) *)
Definition SKIP_DIRS : gset string := {[ ".git" ]}.

(** [set.has(x)] *)
Definition has (s : gset string) (x : string) : bool := bool_decide (x ∈ s).

(** ** Scanner *)

(** [parts[i] === s]; an index out of range reads [undefined]. *)
Definition part_is (parts : list string) (i : nat) (s : string) : bool :=
  match parts !! i with
  | Some x => String.eqb x s
  | None => false
  end.

(** The loop of [isTargetMatch] over the remaining targets. *)
Fixpoint isTargetMatch_from (w : world) (targets : list Target)
    (entryName entryDir : string) : bool :=
  match targets with
  | [] => false
  | target :: rest =>
      if negb (String.eqb (t_name target) entryName)
      then isTargetMatch_from w rest entryName entryDir
      else
        let parentName := Path.basename entryDir in
        match t_match target with
        | direct => true
        | parent p =>
            if String.eqb parentName p then true
            else isTargetMatch_from w rest entryName entryDir
        | parentPath parents =>
            let parts := Path.split entryDir in
            let len := length parts in
            if (2 <=? len)%nat
               && part_is parts (len - 1) (snd parents)
               && part_is parts (len - 2) (fst parents)
            then true
            else isTargetMatch_from w rest entryName entryDir
        | sibling s =>
            let siblingPath := Path.join entryDir s in
            match accessSync w siblingPath with
            | Returned _ => true
            | Thrown _ => isTargetMatch_from w rest entryName entryDir
            end
        end
  end.

Definition isTargetMatch (w : world) (entryName entryDir : string) : bool :=
  isTargetMatch_from w TARGETS entryName entryDir.

(** A [{ name, path, size }] record of [results]. *)
Record MatchRecord := mkMatch { m_name : string; m_path : string; m_size : Z }.

(** [results.push(r)] *)
Definition push (results : list MatchRecord) (r : MatchRecord) : list MatchRecord :=
  results ++ [r].

(** The [for (const entry of entries)] loop of [walk]; [walk_rec] is the
    recursive call, [None] when the recursion budget is used up.  The
    progress spinner only writes to the terminal and is left out. *)
Fixpoint walk_entries (w : world)
    (walk_rec : string -> list MatchRecord -> option (list MatchRecord))
    (dir : string) (entries : list Dirent) (results : list MatchRecord)
  : option (list MatchRecord) :=
  match entries with
  | [] => Some results
  | entry :: rest =>
      if negb (isDirectory entry) then walk_entries w walk_rec dir rest results
      else
        let name := d_name entry in
        if has SKIP_DIRS name then walk_entries w walk_rec dir rest results
        else
          let fullPath := Path.join dir name in
          if isTargetMatch w name dir
          then walk_entries w walk_rec dir rest (push results (mkMatch name fullPath 0))
          else if has TARGET_NAMES name
          then walk_entries w walk_rec dir rest results
          else
            match walk_rec fullPath results with
            | Some results' => walk_entries w walk_rec dir rest results'
            | None => None
            end
  end.

(** [walk(dir)], with the bound [fuel] on the depth of the recursion. *)
Fixpoint walk (w : world) (fuel : nat) (dir : string) (results : list MatchRecord)
  : option (list MatchRecord) :=
  match fuel with
  | O => None
  | S fuel' =>
      match readdirSync w dir with
      | Thrown _ => Some results
      | Returned entries => walk_entries w (walk w fuel') dir entries results
      end
  end.

Fixpoint height (n : node) : nat :=
  match n with
  | Dir _ es => S (fold_right (fun e acc => Nat.max (height (snd e)) acc) O es)
  | _ => O
  end.

(** [scan(rootPath)]: the recursion of [walk] goes no deeper than the
    tree is high. *)
Definition scan (w : world) (rootPath : string) : option (list MatchRecord) :=
  walk w (S (height (root w))) rootPath [].

(** ** Deletion *)

(** The variables of [deleteResults] while it runs: the file system, the
    counters [freed] and [failed], and the failures printed so far (the
    record's name and the error). *)
Record Deletion := mkDeletion {
  d_fs : world;
  freed : Z;
  failed : nat;
  failures : list (string * Errno)
}.

(** One turn of the loop of [deleteResults]: the [try]/[catch] around
    [fs.rmSync]. *)
Definition delete_one (st : Deletion) (r : MatchRecord) : Deletion :=
  match rmSync (d_fs st) (m_path r) with
  | (Returned _, w') =>
      mkDeletion w' (freed st + m_size r) (failed st) (failures st)
  | (Thrown err, w') =>
      mkDeletion w' (freed st) (S (failed st)) (failures st ++ [(m_name r, err)])
  end.

Definition deleteResults (w : world) (results : list MatchRecord) : Deletion :=
  fold_left delete_one results (mkDeletion w 0 0 []).

(** ** Size calculation *)

(** [output.split("\t")[0]]: what precedes the first tab. *)
Fixpoint before_tab (s : string) : string :=
  match s with
  | EmptyString => EmptyString
  | String c s' => if Ascii.eqb c "009"%char then EmptyString else String c (before_tab s')
  end.

Definition digit_of (c : ascii) : option Z :=
  let n := Z.of_nat (nat_of_ascii c) in
  if (48 <=? n)%Z && (n <=? 57)%Z then Some (n - 48)%Z else None.

(** The digits at the start of [s], read in base ten after [acc]; [seen]
    tells whether a digit has been read. *)
Fixpoint read_digits (s : string) (acc : Z) (seen : bool) : option Z :=
  match s with
  | EmptyString => if seen then Some acc else None
  | String c s' =>
      match digit_of c with
      | Some d => read_digits s' (10 * acc + d)%Z true
      | None => if seen then Some acc else None
      end
  end.

Definition is_space (c : ascii) : bool :=
  match nat_of_ascii c with
  | 9 | 10 | 11 | 12 | 13 | 32 => true
  | _ => false
  end.

Fixpoint skip_spaces (s : string) : string :=
  match s with
  | String c s' => if is_space c then skip_spaces s' else s
  | EmptyString => EmptyString
  end.

(** [parseInt(s, 10)] on ASCII text: leading white space, a sign, then
    digits; [None] is [NaN].  The result here is the integer that the
    digits spell; the Number that JavaScript makes of it is its
    [to_double] below. *)
Definition parseInt10 (s : string) : option Z :=
  match skip_spaces s with
  | String "-"%char s' => option_map Z.opp (read_digits s' 0 false)
  | String "+"%char s' => read_digits s' 0 false
  | s' => read_digits s' 0 false
  end.

(** The Number nearest to an integer, as an integer.  Integers below
    [2^53] in absolute value are Numbers; of a larger one the leading 53
    binary digits are kept and the rest is rounded, a tie going to the
    even neighbour.  (From [2^1024] on the Number is [Infinity], which
    has no integer here.) *)
Definition to_double (z : Z) : Z :=
  let a := Z.abs z in
  if (a <? 2 ^ 53)%Z then z
  else
    let e := (Z.log2 a - 52)%Z in
    let q := (a / 2 ^ e)%Z in
    let r := (a mod 2 ^ e)%Z in
    let half := (2 ^ (e - 1))%Z in
    let q' := if (half <? r)%Z || ((r =? half)%Z && Z.odd q) then (q + 1)%Z else q in
    (Z.sgn z * (q' * 2 ^ e))%Z.

(** The size of what [statSync] finds; the tree records the sizes of
    regular files only. *)
Definition statSize (w : world) (p : string) : outcome Z :=
  match lstat w p with
  | Returned (File sz) => Returned sz
  | Returned (Symlink false) => Thrown ENOENT
  | Returned _ => Returned 0%Z
  | Thrown e => Thrown e
  end.

(** The double quote. *)
Definition dquote : ascii := "034"%char.

(** The command line that [getDirSize] builds: the path goes between
    double quotes as it is. *)
Definition du_command (dirPath : string) : string :=
  "du -sk " +:+ String dquote (dirPath +:+ String dquote " 2>/dev/null").

Section Sizes.

(** [process.platform === "win32"] *)
Variable win32 : bool.

(** [execSync(command, { encoding: "utf8", timeout: 30000 })]: the command
    line is handed to a shell, which runs it on the file system as it is.
    The call returns what the command printed, or throws when the command
    fails or runs out of time; either way the file system is then what
    the command has made of it. *)
Variable execSync : world -> string -> outcome string * world.

(** The first part of [getDirSize]: the size that [du] reports, if it
    reports one, and the file system after the command. *)
Definition du_size (w : world) (dirPath : string) : option Z * world :=
  if negb win32 then
    match execSync w (du_command dirPath) with
    | (Returned output, w') =>
        (match parseInt10 (before_tab output) with
         | Some kb => Some (to_double (to_double kb * 1024))
         | None => None
         end, w')
    | (Thrown _, w') => (None, w')
    end
  else (None, w).

(** The loop over the entries in the fallback of [getDirSize]; [rec] is
    the recursive call, [None] when the recursion budget is used up. *)
Fixpoint size_entries (rec : world -> string -> option (Z * world)) (w : world)
    (dirPath : string) (entries : list Dirent) (total : Z) : option (Z * world) :=
  match entries with
  | [] => Some (total, w)
  | entry :: rest =>
      let fullPath := Path.join dirPath (d_name entry) in
      if isSymbolicLink entry then size_entries rec w dirPath rest total
      else if isFile entry then
        match statSize w fullPath with
        | Returned sz => size_entries rec w dirPath rest (total + sz)%Z
        | Thrown _ => size_entries rec w dirPath rest total
        end
      else if isDirectory entry then
        match rec w fullPath with
        | Some (sz, w') => size_entries rec w' dirPath rest (total + sz)%Z
        | None => None
        end
      else size_entries rec w dirPath rest total
  end.

(** [getDirSize(dirPath)], with the bound [fuel] on the depth of the
    recursion: the size and the file system afterwards. *)
Fixpoint getDirSize_upto (fuel : nat) (w : world) (dirPath : string)
  : option (Z * world) :=
  match fuel with
  | O => None
  | S fuel' =>
      match du_size w dirPath with
      | (Some sz, w') => Some (sz, w')
      | (None, w') =>
          match readdirSync w' dirPath with
          | Returned entries =>
              size_entries (getDirSize_upto fuel') w' dirPath entries 0%Z
          | Thrown _ => Some (0%Z, w')
          end
      end
  end.

(** [None] only if the recursion budget is used up, which takes a command
    that has made the tree deeper. *)
Definition getDirSize (w : world) (dirPath : string) : option (Z * world) :=
  getDirSize_upto (S (height (root w))) w dirPath.

End Sizes.

(** ** Main *)

Record Args := mkArgs {
  a_path : option string;
  dryRun : bool;
  yes : bool;
  version : bool;
  help : bool
}.

(** [arg.startsWith("-")] *)
Definition startsWithDash (arg : string) : bool :=
  match arg with
  | String c _ => Ascii.eqb c "-"%char
  | EmptyString => false
  end.

Definition parseArg (args : Args) (arg : string) : Args :=
  if String.eqb arg "-d" || String.eqb arg "--dry-run"
  then mkArgs (a_path args) true (yes args) (version args) (help args)
  else if String.eqb arg "-y" || String.eqb arg "--yes"
  then mkArgs (a_path args) (dryRun args) true (version args) (help args)
  else if String.eqb arg "-v" || String.eqb arg "--version"
  then mkArgs (a_path args) (dryRun args) (yes args) true (help args)
  else if String.eqb arg "-h" || String.eqb arg "--help"
  then mkArgs (a_path args) (dryRun args) (yes args) (version args) true
  else if negb (startsWithDash arg)
  then mkArgs (Some arg) (dryRun args) (yes args) (version args) (help args)
  else args.

(** [parseArgs(argv)]: the loop starts at [argv[2]]. *)
Definition parseArgs (argv : list string) : Args :=
  fold_left parseArg (drop 2 argv) (mkArgs None false false false false).

(** [results.sort((a, b) => b.size - a.size)]: by size, largest first,
    records of equal size in their old order. *)
Fixpoint insert_by_size (r : MatchRecord) (sorted : list MatchRecord)
  : list MatchRecord :=
  match sorted with
  | [] => [r]
  | r' :: rest =>
      if (m_size r <? m_size r')%Z then r' :: insert_by_size r rest
      else r :: sorted
  end.

Definition sort_by_size (results : list MatchRecord) : list MatchRecord :=
  fold_right insert_by_size [] results.

(** How a run of [main] ends; [UncaughtError] is the handler of
    [main().catch]. *)
Inductive Ending :=
| PrintedVersion
| PrintedHelp
| NotADirectory (targetPath : string)
| PathNotFound (targetPath : string)
| NothingFound
| UncaughtError
| DryRun (results : list MatchRecord)
| Aborted (results : list MatchRecord)
| Deleted (results : list MatchRecord) (d : Deletion).

Record Run := mkRun { exitCode : Z; ending : Ending; fs_after : world }.

Section Main.

Variable win32 : bool.
Variable execSync : world -> string -> outcome string * world.

(** Whether the engine passes that many arguments in one call:
    [Math.max(...names)] in [showResults] throws a [RangeError] when the
    records are more than it can spread. *)
Variable spreadable : nat -> bool.

(** The answer read by [prompt], trimmed and in lower case. *)
Variable answer : string.

(** The sizing loop of [main]: [results[i].size = getDirSize(results[i].path)],
    one record after the other, each in the file system that the commands
    before it have left. *)
Fixpoint computeSizes (w : world) (results : list MatchRecord)
  : option (list MatchRecord * world) :=
  match results with
  | [] => Some ([], w)
  | r :: rest =>
      match getDirSize win32 execSync w (m_path r) with
      | None => None
      | Some (sz, w1) =>
          match computeSizes w1 rest with
          | None => None
          | Some (rest', w2) => Some (mkMatch (m_name r) (m_path r) sz :: rest', w2)
          end
      end
  end.

(** [main()] with the handler of [main().catch]; [None] only if [scan] or
    [getDirSize] ran out of recursion budget. *)
Definition main (w : world) (argv : list string) : option Run :=
  let args := parseArgs argv in
  if version args then Some (mkRun 0 PrintedVersion w)
  else if help args then Some (mkRun 0 PrintedHelp w)
  else
    let targetPath :=
      Path.resolve (cwd w)
        (match a_path args with
         | Some p => if String.eqb p "" then "." else p
         | None => "."
         end) in
    match statSync w targetPath with
    | Thrown _ => Some (mkRun 1 (PathNotFound targetPath) w)
    | Returned KDir =>
        match scan w targetPath with
        | None => None
        | Some results =>
            if (length results =? 0)%nat then Some (mkRun 0 NothingFound w)
            else
              match computeSizes w results with
              | None => None
              | Some (results, w1) =>
                  let results := sort_by_size results in
                  if negb (spreadable (length results))
                  then Some (mkRun 1 UncaughtError w1)
                  else if dryRun args then Some (mkRun 0 (DryRun results) w1)
                  else if negb (yes args)
                          && negb (String.eqb answer "y" || String.eqb answer "yes")
                  then Some (mkRun 0 (Aborted results) w1)
                  else
                    let d := deleteResults w1 results in
                    Some (mkRun 0 (Deleted results d) (d_fs d))
              end
        end
    | Returned _ => Some (mkRun 1 (NotADirectory targetPath) w)
    end.

End Main.

(** ** Notions used to state the properties *)

(** Every name in every directory of the tree is one that [readdir] can
    return. *)
Fixpoint wf_node (n : node) : bool :=
  match n with
  | Dir _ es => forallb (fun e => Path.plain (fst e) && wf_node (snd e)) es
  | _ => true
  end.

Definition wf_world (w : world) : bool := wf_node (root w).

(** [readdirSync] lists [nm] as a directory in the directory with
    components [comps]. *)
Definition listed (w : world) (comps : list string) (nm : string) : Prop :=
  exists entries,
    readdirSync w (Path.render comps) = Returned entries /\
    In (mkDirent nm KDir) entries.

(** [Trail w comps rest]: below the directory [comps], the names [rest]
    lead through listed directories that are neither skipped nor known
    target names, to a listed directory that matches. *)
Inductive Trail (w : world) : list string -> list string -> Prop :=
| Trail_hit comps nm :
    listed w comps nm ->
    has SKIP_DIRS nm = false ->
    isTargetMatch w nm (Path.render comps) = true ->
    Trail w comps [nm]
| Trail_step comps nm rest :
    listed w comps nm ->
    has SKIP_DIRS nm = false ->
    isTargetMatch w nm (Path.render comps) = false ->
    has TARGET_NAMES nm = false ->
    Trail w (comps ++ [nm]) rest ->
    Trail w comps (nm :: rest).

(** The record that [walk] pushes at the end of a trail. *)
Definition record_of (comps rest : list string) : MatchRecord :=
  mkMatch (List.last rest "") (Path.render (comps ++ rest)) 0.

(** The sibling test as the specification words it: a regular file (or a
    link to one) with the given name lies in the directory [dir]. *)
Definition spec_siblingFileExists (w : world) (dir name : string) : bool :=
  match lstat w (Path.join dir name) with
  | Returned (File _) => true
  | Returned (Symlink true) => true
  | _ => false
  end.

Definition rwx : Perm := mkPerm true true true.

(** A Ruby-looking project in which [Gemfile] is a directory. *)
Definition gemdir_world : world :=
  mkWorld (Dir rwx [("proj", Dir rwx [("vendor", Dir rwx []);
                                      ("Gemfile", Dir rwx [])])]) "/".

(** No directory of the tree lists a name twice. *)
Fixpoint unique_names (n : node) : bool :=
  match n with
  | Dir _ es =>
      bool_decide (NoDup (map fst es)) && forallb (fun e => unique_names (snd e)) es
  | _ => true
  end.

(** [shrinks n n']: [n'] is [n] with some objects below it removed. *)
Inductive shrinks : node -> node -> Prop :=
| shrinks_refl n : shrinks n n
| shrinks_dir p es es' :
    (forall c ch', find_entry c es' = Some ch' ->
       exists ch, find_entry c es = Some ch /\ shrinks ch ch') ->
    shrinks (Dir p es) (Dir p es').

(** Which removals of [deleteResults] return: [true] where [fs.rmSync]
    returns, [false] where it throws, each in the file system that the
    removals before it have left. *)
Fixpoint attempts (w : world) (results : list MatchRecord) : list bool :=
  match results with
  | [] => []
  | r :: rest =>
      match rmSync w (m_path r) with
      | (Returned _, w') => true :: attempts w' rest
      | (Thrown _, w') => false :: attempts w' rest
      end
  end.

(** The sizes of the records whose removal returned, added up. *)
Fixpoint freed_bytes (results : list MatchRecord) (oks : list bool) : Z :=
  match results, oks with
  | r :: rest, ok :: oks' => ((if ok then m_size r else 0) + freed_bytes rest oks')%Z
  | _, _ => 0%Z
  end.

(** The names of the records whose removal threw. *)
Fixpoint failed_names (results : list MatchRecord) (oks : list bool) : list string :=
  match results, oks with
  | r :: rest, ok :: oks' =>
      if ok then failed_names rest oks' else m_name r :: failed_names rest oks'
  | _, _ => []
  end.

Definition r_x : Perm := mkPerm true false true.

(** Three artifacts; [dist] holds a read-only directory that is not empty. *)
Definition locked_world : world :=
  mkWorld
    (Dir rwx
       [("proj",
         Dir rwx
           [("node_modules", Dir rwx [("left-pad", Dir rwx [("index.js", File 120)])]);
            ("dist", Dir rwx [("assets", Dir r_x [("app.js", File 900)])]);
            (".next", Dir rwx [("cache", File 40)])])])
    "/".

Definition locked_records : list MatchRecord :=
  [ mkMatch "node_modules" "/proj/node_modules" 4096;
    mkMatch "dist" "/proj/dist" 8192;
    mkMatch ".next" "/proj/.next" 1024 ].

(** A home directory with one project of each kind. *)
Definition sample_world : world :=
  mkWorld
    (Dir rwx
       [("home",
         Dir rwx
           [("proj",
             Dir rwx
               [("node_modules", Dir rwx [("node_modules", Dir rwx [])]);
                ("ios", Dir rwx [("Pods", Dir rwx []); ("NotPods", Dir rwx [])]);
                ("backend",
                 Dir rwx [("target", Dir rwx [("x", Dir rwx [("node_modules", Dir rwx [])])])]);
                ("rustcrate", Dir rwx [("target", Dir rwx []); ("Cargo.toml", File 10)]);
                (".git", Dir rwx [("node_modules", Dir rwx [])]);
                (".svn", Dir rwx [("dist", Dir rwx [])]);
                ("rb", Dir rwx [("vendor", Dir rwx []); ("Gemfile", File 3)]);
                ("android", Dir rwx [("app", Dir rwx [("build", Dir rwx [])])]);
                ("README.md", File 1)])])])
    "/home".

(** The two spellings of the dry-run flag. *)
Definition wantsDryRun (arg : string) : bool :=
  String.eqb arg "-d" || String.eqb arg "--dry-run".


(** ** Notions used in the further properties *)

(** The test that the [switch] of [isTargetMatch] makes for one strategy. *)
Definition strategy_holds (w : world) (s : Strategy) (entryDir : string) : bool :=
  match s with
  | direct => true
  | parent p => String.eqb (Path.basename entryDir) p
  | parentPath parents =>
      let parts := Path.split entryDir in
      (2 <=? length parts)%nat
      && part_is parts (length parts - 1) (snd parents)
      && part_is parts (length parts - 2) (fst parents)
  | sibling s =>
      match accessSync w (Path.join entryDir s) with
      | Returned _ => true
      | Thrown _ => false
      end
  end.

(** The paths of records found through the entry [nm] of [comps]. *)
Definition through (comps : list string) (nm : string) (m : MatchRecord) : Prop :=
  exists rest,
    Forall (fun c => Path.plain c = true) (nm :: rest) /\
    m_path m = Path.render (comps ++ nm :: rest).

(** [results.reduce((sum, r) => sum + r.size, 0)], the total that
    [showResults] prints. *)
Definition totalSize (results : list MatchRecord) : Z :=
  fold_left (fun sum r => (sum + m_size r)%Z) results 0%Z.

(** The argument is one of the two spellings of a flag. *)
Definition is_flag (short long arg : string) : bool :=
  String.eqb arg short || String.eqb arg long.

(** Sizes in falling order. *)
Definition larger_first (a b : MatchRecord) : Prop := (m_size b <= m_size a)%Z.

(** Two objects of the same type, and with the same permissions when they
    are directories. *)
Definition similar (n n' : node) : Prop :=
  match n, n' with
  | Dir p _, Dir p' _ => p = p'
  | _, _ => n = n'
  end.

(** Two answers of [lstat] that callers cannot tell apart unless they list
    the directory. *)
Definition same_answer (o o' : outcome node) : Prop :=
  match o, o' with
  | Returned n, Returned n' => similar n n'
  | Thrown e, Thrown e' => e = e'
  | _, _ => False
  end.

(** [q] is not the path [p] and does not lie below it. *)
Definition outside (p q : string) : Prop :=
  q <> p /\ Path.isStrictDescendant p q = false.

(** [path.resolve(args.path || ".")], the directory that [main] scans. *)
Definition targetPath_of (w : world) (args : Args) : string :=
  Path.resolve (cwd w)
    (match a_path args with
     | Some p => if String.eqb p "" then "." else p
     | None => "."
     end).

(** The answers that confirm the deletion. *)
Definition confirms (answer : string) : bool :=
  String.eqb answer "y" || String.eqb answer "yes".

(** The sizes of the regular files in and below a directory that can be
    read and searched all the way; links are left out. *)
Fixpoint files_total (n : node) : Z :=
  match n with
  | Dir p es =>
      if p_r p then
        fold_right
          (fun e acc =>
             (match snd e with
              | File sz => if p_x p then sz else 0
              | Symlink _ => 0
              | Dir _ _ => if p_x p then files_total (snd e) else 0
              end + acc)%Z) 0%Z es
      else 0%Z
  | _ => 0%Z
  end.

(** The commands that the shell is given leave the file system [w] as it
    is. *)
Definition leaves_alone (execSync : world -> string -> outcome string * world)
    (w : world) : Prop :=
  forall command, snd (execSync w command) = w.

(** The tree holds no symbolic link. *)
Fixpoint no_links (n : node) : bool :=
  match n with
  | File _ => true
  | Symlink _ => false
  | Dir _ es => forallb (fun e => no_links (snd e)) es
  end.

(** The number that [getDirSize] returns. *)
Definition sizeOf (win32 : bool) (execSync : world -> string -> outcome string * world)
    (w : world) (p : string) : Z :=
  match getDirSize win32 execSync w p with
  | Some (sz, _) => sz
  | None => 0%Z
  end.

(** The records with the sizes of their paths in the file system [w]. *)
Definition sized (win32 : bool) (execSync : world -> string -> outcome string * world)
    (w : world) (results : list MatchRecord) : list MatchRecord :=
  map (fun r => mkMatch (m_name r) (m_path r) (sizeOf win32 execSync w (m_path r))) results.

(** A shell that cannot run [du] and runs nothing else. *)
Definition no_du (w : world) (command : string) : outcome string * world :=
  (Thrown ENOENT, w).

(** The name in the first [$(rm -rf NAME)] of a command line. *)
Definition rm_substitution (command : string) : option string :=
  match String.index 0 "$(rm -rf " command with
  | Some i =>
      let rest := String.substring (i + 9) (String.length command - (i + 9)) command in
      match String.index 0 ")" rest with
      | Some j => Some (String.substring 0 j rest)
      | None => None
      end
  | None => None
  end.

(** What a POSIX shell does with the command line of [getDirSize] where
    [du] fails: a word between double quotes still undergoes command
    substitution, so a [$(rm -rf NAME)] in the path is run first, in the
    working directory of the process ([rm -rf] removes what
    [fs.rmSync] with [recursive] and [force] removes); then [du] fails
    and [execSync] throws. *)
Definition sh_failing_du (w : world) (command : string) : outcome string * world :=
  match rm_substitution command with
  | Some name => (Thrown ENOENT, snd (rmSync w name))
  | None => (Thrown ENOENT, w)
  end.

(** A project with a directory whose name is a command substitution. *)
Definition injection_world : world :=
  mkWorld
    (Dir rwx
       [("work",
         Dir rwx
           [("node_modules", Dir rwx [("left-pad", Dir rwx [("index.js", File 120)])]);
            ("$(rm -rf node_modules)", Dir rwx [("dist", Dir rwx [("app.js", File 900)])])])])
    "/work".

(** * Properties *)

Example split_abs : Path.split "/a/b" = [""; "a"; "b"].
Proof. reflexivity. Qed.
Example join_ex : Path.join "/a/b" "c" = "/a/b/c" /\ Path.join "/" "c" = "/c"
  /\ Path.join "a/../b//" "c" = "b/c" /\ Path.join "../x" "c" = "../x/c".
Proof. repeat split; reflexivity. Qed.
Example has_ex : has TARGET_NAMES "vendor" = true /\ has SKIP_DIRS ".svn" = false.
Proof. split; vm_compute; reflexivity. Qed.

(** ** Paths *)

#[local] Arguments String.append !_ _ / : simpl nomatch.

Module PathFacts.
Import Path.

Lemma append_nil_r (s : string) : s +:+ "" = s.
Proof. induction s; simpl; congruence. Qed.

Lemma append_assoc (a b c : string) : (a +:+ b) +:+ c = a +:+ (b +:+ c).
Proof. induction a; simpl; congruence. Qed.

Lemma split_not_nil s : split s <> [].
Proof. destruct s as [|c s]; simpl; [easy|]. destruct (Ascii.eqb c sep); [easy|]. destruct (split s); easy. Qed.

Lemma split_app_sep a b : split (a +:+ String sep b) = split a ++ split b.
Proof.
  induction a as [|c a IH]; simpl.
  - reflexivity.
  - destruct (Ascii.eqb c sep); rewrite IH; [reflexivity|].
    pose proof (split_not_nil a) as Hn.
    destruct (split a) as [|x xs]; [easy|]. reflexivity.
Qed.

Lemma join_split s : join_segs (split s) = s.
Proof.
  induction s as [|c s IH]; simpl; [reflexivity|].
  destruct (Ascii.eqb c sep) eqn:E.
  - apply Ascii.eqb_eq in E. subst c.
    pose proof (split_not_nil s) as Hn.
    destruct (split s) as [|x xs] eqn:Es; [easy|].
    change (join_segs ("" :: x :: xs)) with ("" +:+ "/" +:+ join_segs (x :: xs)).
    rewrite IH. reflexivity.
  - pose proof (split_not_nil s) as Hn.
    destruct (split s) as [|x xs] eqn:Es; [easy|].
    destruct xs as [|y ys].
    + simpl in *. congruence.
    + change (join_segs (String c x :: y :: ys)) with (String c (x +:+ "/" +:+ join_segs (y :: ys))).
      change (join_segs (x :: y :: ys)) with (x +:+ "/" +:+ join_segs (y :: ys)) in IH.
      congruence.
Qed.

(** A segment: a string without separator. *)
Definition segment (s : string) : Prop := split s = [s].

Lemma split_single s x : split s = [x] -> x = s.
Proof. intros H. rewrite <- (join_split s), H. reflexivity. Qed.

Lemma split_segments s : Forall segment (split s).
Proof.
  induction s as [|c s IH]; simpl.
  - repeat constructor.
  - destruct (Ascii.eqb c sep) eqn:E.
    + constructor; [reflexivity | exact IH].
    + pose proof (split_not_nil s) as Hn.
      destruct (split s) as [|x xs] eqn:Es; [easy|].
      inversion IH as [|? ? Hx Hxs]; subst.
      constructor; [|exact Hxs].
      unfold segment in *. simpl. rewrite E, Hx. reflexivity.
Qed.

Lemma plain_segment nm : plain nm = true -> segment nm.
Proof.
  unfold plain, segment. intros H.
  apply andb_true_iff in H as [_ H].
  destruct (split nm) as [|x [|y ys]] eqn:E; try discriminate.
  apply split_single in E. congruence.
Qed.

Lemma plain_spec nm :
  plain nm = true <-> nm <> "" /\ nm <> "." /\ nm <> ".." /\ segment nm.
Proof.
  unfold plain. rewrite !andb_true_iff, !negb_true_iff, !String.eqb_neq.
  split.
  - intros [[[H1 H2] H3] H4]. repeat split; auto.
    apply plain_segment. unfold plain.
    rewrite !andb_true_iff, !negb_true_iff, !String.eqb_neq. auto.
  - intros (H1 & H2 & H3 & H4). repeat split; auto. rewrite H4. reflexivity.
Qed.

Lemma split_join_segs comps :
  comps <> [] -> Forall segment comps -> split (join_segs comps) = comps.
Proof.
  induction comps as [|c cs IH]; [easy|]. intros _ Hall.
  inversion Hall as [|? ? Hc Hcs]; subst.
  destruct cs as [|d ds].
  - exact Hc.
  - change (join_segs (c :: d :: ds)) with (c +:+ String sep (join_segs (d :: ds))).
    rewrite split_app_sep, Hc, IH; [reflexivity | easy | exact Hcs].
Qed.

Lemma split_render comps :
  Forall segment comps ->
  split (render comps) = "" :: (match comps with [] => [""] | _ => comps end).
Proof.
  intros H. unfold render.
  change ("/" +:+ join_segs comps) with ("" +:+ String sep (join_segs comps)).
  rewrite split_app_sep. simpl. f_equal.
  destruct comps; [reflexivity|]. apply split_join_segs; easy.
Qed.


Lemma append_sep_not_empty a b : a +:+ String sep b <> "".
Proof. destruct a; simpl; discriminate. Qed.

Lemma endsWithSep_app a b : b <> "" -> endsWithSep (a +:+ b) = endsWithSep b.
Proof.
  intros Hb. induction a as [|c a IH]; simpl; [reflexivity|].
  rewrite IH. destruct (a +:+ b) eqn:E; [|reflexivity].
  destruct a; simpl in E; [congruence | discriminate].
Qed.

Lemma endsWithSep_split s : endsWithSep s = true -> exists a, s = a +:+ "/".
Proof.
  induction s as [|c s IH]; simpl; [discriminate|].
  destruct s as [|d s'].
  - intros H. apply Ascii.eqb_eq in H. subst c. exists "". reflexivity.
  - intros H. destruct (IH H) as [a Ha]. exists (String c a). simpl. congruence.
Qed.

Lemma segment_no_trailing_sep s : segment s -> endsWithSep s = false.
Proof.
  intros Hs. destruct (endsWithSep s) eqn:E; [|reflexivity].
  destruct (endsWithSep_split _ E) as [a Ha]. subst s.
  unfold segment in Hs. change (a +:+ "/") with (a +:+ String sep "") in Hs.
  rewrite split_app_sep in Hs. simpl in Hs.
  pose proof (split_not_nil a). destruct (split a) as [|x [|y ys]]; simpl in Hs; congruence.
Qed.

Lemma join_segs_snoc cs nm :
  join_segs (cs ++ [nm]) =
  match cs with [] => nm | _ => join_segs cs +:+ String sep nm end.
Proof.
  induction cs as [|c cs IH]; [reflexivity|].
  destruct cs as [|d ds]; [reflexivity|].
  change (join_segs ((c :: d :: ds) ++ [nm]))
    with (c +:+ String sep (join_segs ((d :: ds) ++ [nm]))).
  rewrite IH.
  change (join_segs (c :: d :: ds)) with (c +:+ String sep (join_segs (d :: ds))).
  rewrite append_assoc. reflexivity.
Qed.

Lemma join_segs_snoc_not_empty cs nm : nm <> "" -> join_segs (cs ++ [nm]) <> "".
Proof.
  intros Hn. rewrite join_segs_snoc. destruct cs; [exact Hn|].
  apply append_sep_not_empty.
Qed.

Lemma normalize_step_plain b res seg :
  plain seg = true -> normalize_step b res seg = seg :: res.
Proof.
  intros H. apply plain_spec in H as (H1 & H2 & H3 & _).
  unfold normalize_step.
  apply String.eqb_neq in H1, H2, H3. rewrite H1, H2, H3. reflexivity.
Qed.

Lemma fold_normalize_plain b comps res :
  Forall (fun c => plain c = true) comps ->
  fold_left (normalize_step b) comps res = rev comps ++ res.
Proof.
  intros H. revert res. induction H as [|c cs Hc Hcs IH]; intros res; simpl.
  - reflexivity.
  - rewrite normalize_step_plain by exact Hc. rewrite IH.
    rewrite <- app_assoc. reflexivity.
Qed.

Lemma Forall_plain_segment comps :
  Forall (fun c => plain c = true) comps -> Forall segment comps.
Proof. intros H. eapply Forall_impl; [exact H|]. intros c. apply plain_segment. Qed.

Lemma normalize_segs_render b comps :
  Forall (fun c => plain c = true) comps ->
  normalize_segs b (render comps) = comps.
Proof.
  intros H. unfold normalize_segs.
  rewrite split_render by (apply Forall_plain_segment; exact H).
  destruct comps as [|c cs].
  - reflexivity.
  - change (fold_left (normalize_step b) ("" :: c :: cs) [])
      with (fold_left (normalize_step b) (c :: cs) []).
    rewrite fold_normalize_plain by exact H.
    rewrite app_nil_r. apply rev_involutive.
Qed.

Lemma resolve_segs_render cwd comps :
  Forall (fun c => plain c = true) comps ->
  resolve_segs cwd (render comps) = comps.
Proof. intros H. unfold resolve_segs. simpl. apply normalize_segs_render, H. Qed.

Lemma render_not_empty comps : render comps <> "".
Proof. discriminate. Qed.

Lemma join_render comps nm :
  Forall (fun c => plain c = true) comps -> plain nm = true ->
  join (render comps) nm = render (comps ++ [nm]).
Proof.
  intros Hc Hn.
  pose proof (proj1 (plain_spec nm) Hn) as (Hn1 & _ & _ & Hseg).
  unfold join.
  change (String.eqb (render comps) "") with false. cbv iota.
  destruct (String.eqb_spec nm "") as [|_]; [contradiction|].
  set (joined := render comps +:+ "/" +:+ nm).
  assert (Hr : joined = render comps +:+ String sep nm) by reflexivity.
  assert (Hne : String.eqb joined "" = false) by reflexivity.
  assert (Habs : isAbsolute joined = true) by reflexivity.
  assert (Hts : endsWithSep joined = false).
  { rewrite Hr, endsWithSep_app by discriminate.
    destruct nm as [|c nm']; [contradiction|].
    exact (segment_no_trailing_sep _ Hseg). }
  assert (Hns : normalizeString joined false = join_segs (comps ++ [nm])).
  { unfold normalizeString, normalize_segs. rewrite Hr, split_app_sep.
    rewrite fold_left_app.
    pose proof (normalize_segs_render false comps Hc) as E.
    unfold normalize_segs in E. apply (f_equal (@rev string)) in E.
    rewrite rev_involutive in E. rewrite E.
    rewrite Hseg. cbn [fold_left]. rewrite normalize_step_plain by exact Hn.
    change (rev (nm :: rev comps)) with (rev (rev comps) ++ [nm]).
    rewrite rev_involutive. reflexivity. }
  unfold normalize. rewrite Hne, Habs, Hts. cbn [negb]. rewrite Hns.
  destruct (String.eqb_spec (join_segs (comps ++ [nm])) "") as [E|_].
  - exfalso. exact (join_segs_snoc_not_empty comps nm Hn1 E).
  - reflexivity.
Qed.

Lemma normalize_step_keeps_plain res seg :
  Forall (fun c => plain c = true) res -> segment seg ->
  Forall (fun c => plain c = true) (normalize_step false res seg).
Proof.
  intros Hres Hseg. unfold normalize_step.
  destruct (String.eqb_spec seg "") as [|H1]; [exact Hres|].
  destruct (String.eqb_spec seg ".") as [|H2]; [exact Hres|].
  destruct (String.eqb_spec seg "..") as [|H3].
  - destruct res as [|top rest]; [constructor|].
    destruct (String.eqb top ".."); [exact Hres|].
    inversion Hres; assumption.
  - constructor; [|exact Hres]. apply plain_spec. auto.
Qed.

Lemma normalize_segs_plain p : Forall (fun c => plain c = true) (normalize_segs false p).
Proof.
  unfold normalize_segs. apply Forall_rev.
  assert (H : forall segs res, Forall segment segs ->
             Forall (fun c => plain c = true) res ->
             Forall (fun c => plain c = true) (fold_left (normalize_step false) segs res)).
  { induction segs as [|s segs IH]; intros res Hs Hres; simpl; [exact Hres|].
    inversion Hs; subst. apply IH; [assumption|].
    apply normalize_step_keeps_plain; assumption. }
  apply H; [apply split_segments | constructor].
Qed.

Lemma resolve_segs_plain cwd p : Forall (fun c => plain c = true) (resolve_segs cwd p).
Proof. apply normalize_segs_plain. Qed.

Lemma resolve_render cwd p : resolve cwd p = render (resolve_segs cwd p).
Proof. reflexivity. Qed.

Lemma isResolved_spec p :
  isResolved p = true <->
  exists comps, Forall (fun c => plain c = true) comps /\ p = render comps.
Proof.
  unfold isResolved. rewrite String.eqb_eq. split.
  - intros H. exists (resolve_segs "" p). split; [apply resolve_segs_plain|].
    rewrite <- H at 1. reflexivity.
  - intros (comps & Hc & ->). rewrite resolve_render, resolve_segs_render by exact Hc.
    reflexivity.
Qed.

Lemma isResolved_resolve cwd p : isResolved (resolve cwd p) = true.
Proof.
  apply isResolved_spec. exists (resolve_segs cwd p).
  split; [apply resolve_segs_plain | reflexivity].
Qed.

Lemma filter_plain comps :
  Forall (fun c => plain c = true) comps ->
  List.filter (fun seg => negb (String.eqb seg "")) comps = comps.
Proof.
  induction 1 as [|c cs Hc Hcs IH]; simpl; [reflexivity|].
  apply plain_spec in Hc as (H1 & _). apply String.eqb_neq in H1.
  rewrite H1. simpl. congruence.
Qed.

Lemma components_render comps :
  Forall (fun c => plain c = true) comps -> components (render comps) = comps.
Proof.
  intros H. unfold components.
  rewrite split_render by (apply Forall_plain_segment; exact H).
  destruct comps as [|c cs]; [reflexivity|].
  change (List.filter (fun seg => negb (String.eqb seg "")) ("" :: c :: cs))
    with (List.filter (fun seg => negb (String.eqb seg "")) (c :: cs)).
  apply filter_plain, H.
Qed.

Lemma render_inj a b :
  Forall (fun c => plain c = true) a -> Forall (fun c => plain c = true) b ->
  render a = render b -> a = b.
Proof.
  intros Ha Hb E. rewrite <- (components_render a Ha), <- (components_render b Hb).
  congruence.
Qed.

Lemma strict_prefixb_spec a b :
  strict_prefixb a b = true <-> exists x rest, b = a ++ x :: rest.
Proof.
  revert b. induction a as [|x a IH]; intros [|y b]; simpl.
  - split; [discriminate | intros (? & ? & ?); discriminate].
  - split; [eauto | reflexivity].
  - split; [discriminate | intros (? & ? & ?); discriminate].
  - rewrite andb_true_iff, String.eqb_eq, IH. split.
    + intros [-> (z & rest & ->)]. eauto.
    + intros (z & rest & E). injection E as -> ->. eauto.
Qed.

Lemma isStrictDescendant_render a b :
  Forall (fun c => plain c = true) a -> Forall (fun c => plain c = true) b ->
  isStrictDescendant (render a) (render b) = true <->
  exists x rest, b = a ++ x :: rest.
Proof.
  intros Ha Hb. unfold isStrictDescendant.
  rewrite !components_render by assumption. apply strict_prefixb_spec.
Qed.

Lemma basename_render comps :
  Forall (fun c => plain c = true) comps -> basename (render comps) = List.last comps "".
Proof.
  intros H. unfold basename. fold (components (render comps)).
  rewrite components_render by exact H. reflexivity.
Qed.

End PathFacts.

Import PathFacts.

#[local] Arguments String.append : simpl never.

(** ** The file system and the walker *)

Abbreviation plains := (Forall (fun c => Path.plain c = true)).

Section NodeInd.
Variable P : node -> Prop.
Hypothesis HFile : forall sz, P (File sz).
Hypothesis HLink : forall b, P (Symlink b).
Hypothesis HDir : forall p es, Forall (fun e => P (snd e)) es -> P (Dir p es).

Fixpoint node_ind' (n : node) : P n :=
  match n with
  | File sz => HFile sz
  | Symlink b => HLink b
  | Dir p es =>
      HDir p es
        ((fix go (es : list (string * node)) : Forall (fun e => P (snd e)) es :=
            match es with
            | [] => List.Forall_nil _
            | e :: rest => List.Forall_cons _ e rest (node_ind' (snd e)) (go rest)
            end) es)
  end.
End NodeInd.

Lemma find_entry_In nm es ch : find_entry nm es = Some ch -> In (nm, ch) es.
Proof.
  induction es as [|[nm' ch'] es IH]; simpl; [discriminate|].
  destruct (String.eqb_spec nm' nm) as [->|_].
  - intros [= ->]. left. reflexivity.
  - intros H. right. apply IH, H.
Qed.

Lemma wf_node_entry p es nm ch :
  wf_node (Dir p es) = true -> In (nm, ch) es ->
  Path.plain nm = true /\ wf_node ch = true.
Proof.
  simpl. rewrite forallb_forall. intros H Hin.
  specialize (H _ Hin). simpl in H. apply andb_true_iff in H. exact H.
Qed.

Lemma lookup_wf n comps m :
  wf_node n = true -> lookup n comps = Returned m -> wf_node m = true.
Proof.
  revert n. induction comps as [|c cs IH]; intros n Hwf; simpl.
  - intros [= <-]. exact Hwf.
  - destruct n as [sz|[|]|p es]; try discriminate.
    destruct (p_x p); [|discriminate].
    destruct (find_entry c es) as [ch|] eqn:E; [|discriminate].
    apply find_entry_In in E. apply (wf_node_entry _ _ _ _ Hwf) in E as [_ Hch].
    apply IH, Hch.
Qed.

Lemma height_entry p es nm ch : In (nm, ch) es -> (height ch < height (Dir p es))%nat.
Proof.
  simpl. induction es as [|e es IH]; simpl; [easy|].
  intros [-> | Hin]; simpl; [lia|]. specialize (IH Hin). lia.
Qed.

Lemma lookup_height n comps m : lookup n comps = Returned m -> (height m <= height n)%nat.
Proof.
  revert n. induction comps as [|c cs IH]; intros n; simpl.
  - intros [= <-]. lia.
  - destruct n as [sz|[|]|p es]; try discriminate.
    destruct (p_x p); [|discriminate].
    destruct (find_entry c es) as [ch|] eqn:E; [|discriminate].
    intros H. apply IH in H. apply find_entry_In in E.
    pose proof (height_entry p es c ch E). simpl in *. lia.
Qed.

Lemma lookup_snoc n comps nm :
  lookup n (comps ++ [nm]) =
  match lookup n comps with
  | Returned m => lookup m [nm]
  | Thrown e => Thrown e
  end.
Proof.
  revert n. induction comps as [|c cs IH]; intros n.
  - reflexivity.
  - cbn [app lookup]. destruct n as [sz|[|]|p es]; try reflexivity.
    destruct (p_x p); [|reflexivity].
    destruct (find_entry c es); [apply IH | reflexivity].
Qed.

Lemma lstat_render w comps :
  plains comps -> lstat w (Path.render comps) = lookup (root w) comps.
Proof.
  intros H. unfold lstat. change (String.eqb (Path.render comps) "") with false.
  cbv iota. rewrite resolve_segs_render by exact H. reflexivity.
Qed.

(** What [readdirSync] returns, on a resolved path. *)
Lemma readdir_render w comps entries :
  plains comps ->
  readdirSync w (Path.render comps) = Returned entries ->
  exists p es, lookup (root w) comps = Returned (Dir p es) /\ p_r p = true /\
    entries = map (fun e => mkDirent (fst e) (kind_of (snd e))) es.
Proof.
  intros H. unfold readdirSync. rewrite lstat_render by exact H.
  destruct (lookup (root w) comps) as [[sz|[|]|p es]|e]; try discriminate.
  destruct (p_r p) eqn:Hr; [|discriminate].
  intros [= <-]. eauto.
Qed.

Lemma readdir_entry w comps entries e :
  wf_world w = true -> plains comps ->
  readdirSync w (Path.render comps) = Returned entries ->
  In e entries ->
  Path.plain (d_name e) = true.
Proof.
  intros Hwf Hc Hrd Hin.
  destruct (readdir_render _ _ _ Hc Hrd) as (p & es & Hl & Hr & ->).
  apply in_map_iff in Hin as ([nm ch] & <- & Hin). simpl.
  pose proof (lookup_wf _ _ _ Hwf Hl) as Hwfd.
  apply (wf_node_entry _ _ _ _ Hwfd Hin).
Qed.

Lemma listed_plain w comps nm :
  wf_world w = true -> plains comps -> listed w comps nm -> Path.plain nm = true.
Proof.
  intros Hwf Hc (entries & Hrd & Hin).
  apply (readdir_entry _ _ _ _ Hwf Hc Hrd Hin).
Qed.

Lemma plains_snoc comps nm : plains comps -> Path.plain nm = true -> plains (comps ++ [nm]).
Proof. intros. apply Forall_app. split; [assumption | repeat constructor; assumption]. Qed.

Lemma Trail_not_nil w comps rest : Trail w comps rest -> rest <> [].
Proof. destruct 1; discriminate. Qed.

Lemma Trail_plain w comps rest :
  wf_world w = true -> plains comps -> Trail w comps rest -> plains rest.
Proof.
  intros Hwf Hc T. induction T as [comps nm Hl _ _ | comps nm rest Hl _ _ _ T IH].
  - repeat constructor. apply (listed_plain _ _ _ Hwf Hc Hl).
  - pose proof (listed_plain _ _ _ Hwf Hc Hl) as Hn.
    constructor; [exact Hn|]. apply IH, plains_snoc; assumption.
Qed.

Lemma isDirectory_eta e : isDirectory e = true -> e = mkDirent (d_name e) KDir.
Proof. destruct e as [nm []]; unfold isDirectory; simpl; intros; congruence. Qed.

(** *** [walk] only adds records *)

Lemma walk_entries_mono w walk_rec dir entries :
  (forall d acc out, walk_rec d acc = Some out -> exists new, out = acc ++ new) ->
  forall acc out,
  walk_entries w walk_rec dir entries acc = Some out -> exists new, out = acc ++ new.
Proof.
  intros Hrec. induction entries as [|e entries IH]; intros acc out; simpl.
  - intros [= <-]. exists []. symmetry. apply app_nil_r.
  - destruct (negb (isDirectory e)); [apply IH|].
    destruct (has SKIP_DIRS (d_name e)); [apply IH|].
    destruct (isTargetMatch w (d_name e) dir).
    + intros H. apply IH in H as [new ->]. unfold push. rewrite <- app_assoc. eauto.
    + destruct (has TARGET_NAMES (d_name e)); [apply IH|].
      destruct (walk_rec _ acc) as [acc'|] eqn:E; [|discriminate].
      intros H. apply IH in H as [new ->]. apply Hrec in E as [new' ->].
      rewrite <- app_assoc. eauto.
Qed.

Lemma walk_mono w fuel : forall dir acc out,
  walk w fuel dir acc = Some out -> exists new, out = acc ++ new.
Proof.
  induction fuel as [|fuel IH]; intros dir acc out; simpl; [discriminate|].
  destruct (readdirSync w dir) as [entries|e].
  - apply walk_entries_mono, IH.
  - intros [= <-]. exists []. symmetry. apply app_nil_r.
Qed.

(** *** Every record that [walk] adds lies at the end of a trail *)

Definition on_trail (w : world) (comps : list string) (m : MatchRecord) : Prop :=
  exists rest, Trail w comps rest /\ m = record_of comps rest.

Lemma record_of_step comps nm rest :
  rest <> [] -> record_of (comps ++ [nm]) rest = record_of comps (nm :: rest).
Proof.
  intros Hr. unfold record_of. rewrite <- app_assoc. simpl.
  destruct rest; [contradiction | reflexivity].
Qed.

Section Sound.
Variable w : world.
Hypothesis Hwf : wf_world w = true.

Lemma walk_entries_sound walk_rec comps all_entries :
  plains comps ->
  readdirSync w (Path.render comps) = Returned all_entries ->
  (forall nm acc out, Path.plain nm = true ->
     walk_rec (Path.render (comps ++ [nm])) acc = Some out ->
     exists new, out = acc ++ new /\ Forall (on_trail w (comps ++ [nm])) new) ->
  forall entries acc out,
  (forall e, In e entries -> In e all_entries) ->
  walk_entries w walk_rec (Path.render comps) entries acc = Some out ->
  exists new, out = acc ++ new /\ Forall (on_trail w comps) new.
Proof.
  intros Hc Hrd Hrec. induction entries as [|e entries IH]; intros acc out Hsub; simpl.
  - intros [= <-]. exists []. split; [symmetry; apply app_nil_r | constructor].
  - assert (Hsub' : forall e', In e' entries -> In e' all_entries)
      by (intros; apply Hsub; right; assumption).
    destruct (isDirectory e) eqn:Hd; simpl; [|apply IH, Hsub'].
    destruct (has SKIP_DIRS (d_name e)) eqn:Hs; [apply IH, Hsub'|].
    assert (Hin : In e all_entries) by (apply Hsub; left; reflexivity).
    pose proof (readdir_entry _ _ _ _ Hwf Hc Hrd Hin) as Hpl.
    assert (Hl : listed w comps (d_name e)).
    { exists all_entries. split; [exact Hrd|].
      rewrite <- (isDirectory_eta e Hd). exact Hin. }
    rewrite (join_render _ _ Hc Hpl).
    destruct (isTargetMatch w (d_name e) (Path.render comps)) eqn:Hm.
    + intros H. apply (IH _ _ Hsub') in H as (new & -> & Hnew).
      exists (mkMatch (d_name e) (Path.render (comps ++ [d_name e])) 0 :: new).
      split; [unfold push; rewrite <- app_assoc; reflexivity|].
      constructor; [|exact Hnew].
      exists [d_name e]. split; [|reflexivity].
      apply Trail_hit; assumption.
    + destruct (has TARGET_NAMES (d_name e)) eqn:Ht; [apply IH, Hsub'|].
      destruct (walk_rec _ acc) as [acc'|] eqn:E; [|discriminate].
      intros H. apply (IH _ _ Hsub') in H as (new & -> & Hnew).
      apply (Hrec _ _ _ Hpl) in E as (new' & -> & Hnew').
      exists (new' ++ new). split; [rewrite <- app_assoc; reflexivity|].
      apply Forall_app. split; [|exact Hnew].
      eapply Forall_impl; [exact Hnew'|].
      intros m (rest & T & ->). exists (d_name e :: rest). split.
      * apply Trail_step; assumption.
      * apply record_of_step. eapply Trail_not_nil, T.
Qed.

Lemma walk_sound fuel : forall comps acc out,
  plains comps ->
  walk w fuel (Path.render comps) acc = Some out ->
  exists new, out = acc ++ new /\ Forall (on_trail w comps) new.
Proof.
  induction fuel as [|fuel IH]; intros comps acc out Hc; simpl; [discriminate|].
  destruct (readdirSync w (Path.render comps)) as [entries|e] eqn:Hrd.
  - apply (walk_entries_sound _ _ entries Hc Hrd); [|auto].
    intros nm acc' out' Hn. apply IH, plains_snoc; assumption.
  - intros [= <-]. exists []. split; [symmetry; apply app_nil_r | constructor].
Qed.

(** *** [walk] returns *)

Lemma walk_entries_total walk_rec comps p es :
  plains comps ->
  lookup (root w) comps = Returned (Dir p es) ->
  (forall nm ch acc, In (nm, ch) es -> Path.plain nm = true ->
     exists out, walk_rec (Path.render (comps ++ [nm])) acc = Some out) ->
  forall entries acc,
  (forall e, In e entries -> exists ch, In (d_name e, ch) es) ->
  exists out, walk_entries w walk_rec (Path.render comps) entries acc = Some out.
Proof.
  intros Hc Hl Hrec. induction entries as [|e entries IH]; intros acc Hsub; simpl.
  - eauto.
  - assert (Hsub' : forall e', In e' entries -> exists ch, In (d_name e', ch) es)
      by (intros; apply Hsub; right; assumption).
    destruct (negb (isDirectory e)); [apply IH, Hsub'|].
    destruct (has SKIP_DIRS (d_name e)); [apply IH, Hsub'|].
    destruct (isTargetMatch w (d_name e) (Path.render comps)); [apply IH, Hsub'|].
    destruct (has TARGET_NAMES (d_name e)); [apply IH, Hsub'|].
    destruct (Hsub e (or_introl eq_refl)) as [ch Hin].
    pose proof (lookup_wf _ _ _ Hwf Hl) as Hwfd.
    destruct (wf_node_entry _ _ _ _ Hwfd Hin) as [Hpl _].
    rewrite (join_render _ _ Hc Hpl).
    destruct (Hrec _ _ acc Hin Hpl) as [acc' ->]. apply IH, Hsub'.
Qed.

Lemma walk_total fuel : forall comps acc,
  plains comps ->
  (forall n, lookup (root w) comps = Returned n -> (height n < fuel)%nat) ->
  (0 < fuel)%nat ->
  exists out, walk w fuel (Path.render comps) acc = Some out.
Proof.
  induction fuel as [|fuel IH]; intros comps acc Hc Hh Hpos; [lia|]. simpl.
  destruct (readdirSync w (Path.render comps)) as [entries|e] eqn:Hrd; [|eauto].
  destruct (readdir_render _ _ _ Hc Hrd) as (p & es & Hl & Hr & ->).
  specialize (Hh _ Hl).
  apply (walk_entries_total _ _ p es Hc Hl).
  - intros nm ch acc' Hin Hpl.
    pose proof (height_entry p es nm ch Hin) as Hlt.
    apply IH; [apply plains_snoc; assumption | | lia].
    intros n. rewrite lookup_snoc, Hl. simpl.
    destruct (p_x p); [|discriminate].
    destruct (find_entry nm es) as [ch'|] eqn:E; [|discriminate].
    intros [= <-]. apply find_entry_In in E.
    pose proof (height_entry p es nm ch' E). lia.
  - intros e Hin. apply in_map_iff in Hin as ([nm ch] & <- & Hin). simpl. eauto.
Qed.

Lemma scan_total comps :
  plains comps -> exists results, scan w (Path.render comps) = Some results.
Proof.
  intros Hc. apply walk_total; [exact Hc | | lia].
  intros n Hl. apply lookup_height in Hl. lia.
Qed.

Lemma scan_sound comps results :
  plains comps -> scan w (Path.render comps) = Some results ->
  Forall (on_trail w comps) results.
Proof.
  intros Hc H. apply (walk_sound _ _ _ _ Hc) in H as (new & -> & Hnew). exact Hnew.
Qed.

End Sound.

(** *** What a trail passes through *)

Lemma Trail_no_extension w comps r1 :
  Trail w comps r1 -> forall x more, ~ Trail w comps (r1 ++ x :: more).
Proof.
  induction 1 as [comps nm _ _ Hm | comps nm rest _ _ Hm _ T IH]; intros x more T2.
  - inversion T2; subst; congruence.
  - inversion T2 as [? ? _ _ _ E | ? ? ? _ _ _ _ T2' E]; subst.
    + destruct rest; discriminate.
    + exact (IH _ _ T2').
Qed.

Lemma Trail_inside w comps rest :
  Trail w comps rest ->
  forall pre nm post, rest = pre ++ nm :: post ->
    has SKIP_DIRS nm = false /\
    listed w (comps ++ pre) nm /\
    (post = [] -> isTargetMatch w nm (Path.render (comps ++ pre)) = true) /\
    (post <> [] -> isTargetMatch w nm (Path.render (comps ++ pre)) = false /\
                   has TARGET_NAMES nm = false).
Proof.
  induction 1 as [comps nm Hl Hs Hm | comps nm rest Hl Hs Hm Ht T IH];
    intros pre nm' post E.
  - destruct pre as [|a pre]; [|destruct pre; discriminate].
    injection E as <- <-. rewrite app_nil_r.
    split; [exact Hs|]. split; [exact Hl|]. split; [intros _; exact Hm|].
    intros H; contradiction.
  - destruct pre as [|a pre].
    + injection E as <- <-. rewrite app_nil_r.
      split; [exact Hs|]. split; [exact Hl|]. split; [|intros _; split; assumption].
      intros ->. apply Trail_not_nil in T. contradiction.
    + injection E as <- ->.
      specialize (IH pre nm' post eq_refl). rewrite <- app_assoc in IH. exact IH.
Qed.

(** *** Every trail ends in a record of the result *)

Lemma walk_entries_reach w walk_rec dir entries e (m : MatchRecord) :
  (forall d acc out, walk_rec d acc = Some out -> exists new, out = acc ++ new) ->
  In e entries ->
  (forall rest acc out,
     walk_entries w walk_rec dir (e :: rest) acc = Some out -> In m out) ->
  forall acc out, walk_entries w walk_rec dir entries acc = Some out -> In m out.
Proof.
  intros Hrec Hin He. induction entries as [|e' entries IH]; [destruct Hin|].
  destruct Hin as [-> | Hin]; [apply He|].
  specialize (IH Hin). intros acc out. simpl.
  destruct (negb (isDirectory e')); [apply IH|].
  destruct (has SKIP_DIRS (d_name e')); [apply IH|].
  destruct (isTargetMatch w (d_name e') dir); [apply IH|].
  destruct (has TARGET_NAMES (d_name e')); [apply IH|].
  destruct (walk_rec _ acc); [apply IH | discriminate].
Qed.

Lemma walk_complete w comps rest :
  wf_world w = true -> plains comps -> Trail w comps rest ->
  forall fuel acc out,
    walk w fuel (Path.render comps) acc = Some out -> In (record_of comps rest) out.
Proof.
  intros Hwf Hc T. revert Hc.
  induction T as [comps nm Hl Hs Hm | comps nm rest Hl Hs Hm Ht T IH];
    intros Hc [|fuel] acc out; simpl; try discriminate;
    pose proof (listed_plain _ _ _ Hwf Hc Hl) as Hpl;
    destruct Hl as (entries & Hrd & Hin); rewrite Hrd.
  - apply (walk_entries_reach _ _ _ _ _ _ (walk_mono w fuel) Hin).
    intros rest acc' out'. simpl.
    change (isDirectory (mkDirent nm KDir)) with true. simpl. rewrite Hs, Hm.
    intros H. apply walk_entries_mono in H as [new ->]; [|apply walk_mono].
    apply in_or_app. left. apply in_or_app. right. left.
    rewrite (join_render _ _ Hc Hpl). reflexivity.
  - apply (walk_entries_reach _ _ _ _ _ _ (walk_mono w fuel) Hin).
    intros rest' acc' out'. simpl.
    change (isDirectory (mkDirent nm KDir)) with true. simpl. rewrite Hs, Hm, Ht.
    rewrite (join_render _ _ Hc Hpl).
    destruct (walk w fuel _ acc') as [acc''|] eqn:E; [|discriminate].
    intros H. apply walk_entries_mono in H as [new ->]; [|apply walk_mono].
    apply in_or_app. left.
    rewrite <- (record_of_step _ _ _ (Trail_not_nil _ _ _ T)).
    apply (IH (plains_snoc _ _ Hc Hpl) _ _ _ E).
Qed.

(** *** The two sets *)

Lemma isTargetMatch_from_known w targets nm dir :
  isTargetMatch_from w targets nm dir = true -> In nm (map t_name targets).
Proof.
  induction targets as [|t targets IH]; simpl; [discriminate|].
  destruct (String.eqb_spec (t_name t) nm) as [->|_]; simpl.
  - intros _. left. reflexivity.
  - intros H. right. apply IH, H.
Qed.

Lemma has_spec (s : gset string) x : has s x = true <-> x ∈ s.
Proof. unfold has. apply bool_decide_eq_true. Qed.

Lemma has_list_to_set (l : list string) x :
  has (list_to_set l) x = true <-> In x l.
Proof. rewrite has_spec. rewrite elem_of_list_to_set. apply list_elem_of_In. Qed.

Lemma has_TARGET_NAMES nm : has TARGET_NAMES nm = true <-> In nm (map t_name TARGETS).
Proof.
  unfold TARGET_NAMES. generalize (map t_name TARGETS). intros l.
  apply has_list_to_set.
Qed.

Lemma has_SKIP_DIRS nm : has SKIP_DIRS nm = true <-> nm = ".git".
Proof. rewrite has_spec. unfold SKIP_DIRS. apply elem_of_singleton. Qed.

Lemma isTargetMatch_known w nm dir :
  isTargetMatch w nm dir = true -> has TARGET_NAMES nm = true.
Proof.
  unfold isTargetMatch. intros H. apply isTargetMatch_from_known in H.
  exact (proj2 (has_TARGET_NAMES nm) H).
Qed.

(** ** The matcher *)

Lemma isTargetMatch_sibling_rule w t s dir :
  In t TARGETS -> t_match t = sibling s ->
  isTargetMatch w (t_name t) dir =
  match accessSync w (Path.join dir s) with Returned _ => true | Thrown _ => false end.
Proof.
  intros Hin Hs. unfold TARGETS in Hin. simpl in Hin.
  repeat (destruct Hin as [<- | Hin]; [try discriminate Hs|]); [| |destruct Hin].
  all: injection Hs as <-; unfold isTargetMatch, TARGETS;
    cbn -[Path.join accessSync]; destruct accessSync; reflexivity.
Qed.

Lemma isTargetMatch_build w dir :
  isTargetMatch w "build" dir =
  (2 <=? length (Path.split dir))%nat
  && part_is (Path.split dir) (length (Path.split dir) - 1) "app"
  && part_is (Path.split dir) (length (Path.split dir) - 2) "android".
Proof.
  unfold isTargetMatch, TARGETS. cbn -[Path.split part_is Nat.leb Nat.sub].
  destruct (_ && _ && _); reflexivity.
Qed.

Lemma part_is_spec parts i s : part_is parts i s = true <-> parts !! i = Some s.
Proof.
  unfold part_is. destruct (parts !! i) as [x|]; [|split; discriminate].
  rewrite String.eqb_eq. split; congruence.
Qed.

Lemma ends_with_pair (parts : list string) x y :
  (2 <=? length parts)%nat && part_is parts (length parts - 1) y
    && part_is parts (length parts - 2) x = true
  <-> exists pre, parts = pre ++ [x; y].
Proof.
  rewrite !andb_true_iff, Nat.leb_le, !part_is_spec. split.
  - intros [[Hlen Hy] Hx].
    destruct parts as [|b l] using rev_ind; [simpl in Hlen; lia|].
    destruct l as [|a l'] using rev_ind; [simpl in Hlen; lia|].
    rewrite !length_app in *. simpl in *.
    rewrite lookup_app_r in Hy by (rewrite length_app; simpl; lia).
    rewrite length_app in Hy. simpl in Hy.
    replace (length l' + 1 + 1 - 1 - (length l' + 1))%nat with 0%nat in Hy by lia.
    rewrite lookup_app_l in Hx by (rewrite length_app; simpl; lia).
    rewrite lookup_app_r in Hx by lia.
    replace (length l' + 1 + 1 - 2 - length l')%nat with 0%nat in Hx by lia.
    simpl in *. injection Hx as ->. injection Hy as ->.
    exists l'. rewrite <- app_assoc. reflexivity.
  - intros [pre ->]. rewrite length_app. simpl. repeat split; [lia| |].
    + rewrite lookup_app_r by lia.
      replace (length pre + 2 - 1 - length pre)%nat with 1%nat by lia. reflexivity.
    + rewrite lookup_app_r by lia.
      replace (length pre + 2 - 2 - length pre)%nat with 0%nat by lia. reflexivity.
Qed.

Lemma split_ends_with_pair dir x y :
  segment x -> segment y ->
  (exists pre, Path.split dir = pre ++ [x; y]) <->
  dir = x +:+ "/" +:+ y \/ exists p, dir = p +:+ "/" +:+ x +:+ "/" +:+ y.
Proof.
  intros Hx Hy. split.
  - intros [pre E]. apply (f_equal Path.join_segs) in E. rewrite join_split in E.
    destruct pre as [|c pre]; [left; exact E|]. right.
    exists (Path.join_segs (c :: pre)). rewrite E.
    change (c :: pre ++ [x; y]) with ((c :: pre) ++ [x; y]).
    generalize (c :: pre) (@nil_cons _ c pre). clear. intros l Hl.
    replace (l ++ [x; y]) with ((l ++ [x]) ++ [y]) by (rewrite <- app_assoc; reflexivity).
    rewrite join_segs_snoc. destruct (l ++ [x]) eqn:E; [destruct l; discriminate|].
    rewrite <- E, join_segs_snoc. destruct l; [congruence|].
    rewrite append_assoc. reflexivity.
  - assert (Hxy : Path.split (x +:+ "/" +:+ y) = [x; y]).
    { change (x +:+ "/" +:+ y) with (x +:+ String Path.sep y).
      rewrite split_app_sep, Hx, Hy. reflexivity. }
    intros [-> | [p ->]].
    + exists []. exact Hxy.
    + exists (Path.split p).
      change (p +:+ "/" +:+ x +:+ "/" +:+ y) with (p +:+ String Path.sep (x +:+ "/" +:+ y)).
      rewrite split_app_sep, Hxy. reflexivity.
Qed.

(** C8: a directory whose name carries the [direct] strategy
    ([node_modules], [.next], [dist], ...) matches whatever its parent
    path is, and whatever the file system holds. *)
Theorem direct_targets_match_anywhere t :
  In t TARGETS -> t_match t = direct ->
  forall w entryDir, isTargetMatch w (t_name t) entryDir = true.
Proof.
  intros Hin Hd w dir. unfold TARGETS in Hin. simpl in Hin.
  repeat (destruct Hin as [<- | Hin]; [try discriminate Hd; reflexivity|]).
  destruct Hin.
Qed.

Lemma direct_targets_match_anywhere_witness :
  In (mkTarget "node_modules" direct) TARGETS /\
  forall w entryDir, isTargetMatch w "node_modules" entryDir = true.
Proof.
  split; [left; reflexivity|].
  apply (direct_targets_match_anywhere (mkTarget "node_modules" direct));
    [left; reflexivity | reflexivity].
Defined.

(** C4: a directory named [build] matches exactly when the last two
    segments of its parent path are [android] and [app], in this order,
    that is when the parent path is [android/app] or ends in
    [/android/app]; with fewer than two segments, or under another suffix
    such as [/backend], it does not match. *)
Theorem build_matches_iff_under_android_app w entryDir :
  (isTargetMatch w "build" entryDir = true <->
   exists pre, Path.split entryDir = pre ++ ["android"; "app"]) /\
  (isTargetMatch w "build" entryDir = true <->
   entryDir = "android/app" \/ exists p, entryDir = p +:+ "/android/app") /\
  ((length (Path.split entryDir) < 2)%nat -> isTargetMatch w "build" entryDir = false) /\
  (forall p, isTargetMatch w "build" (p +:+ "/backend") = false).
Proof.
  assert (H1 : forall dir, isTargetMatch w "build" dir = true <->
             exists pre, Path.split dir = pre ++ ["android"; "app"]).
  { intros dir. rewrite isTargetMatch_build. apply ends_with_pair. }
  split; [apply H1|]. split; [|split].
  - rewrite H1. apply (split_ends_with_pair entryDir "android" "app"); reflexivity.
  - intros Hlen. destruct (isTargetMatch w "build" entryDir) eqn:E; [|reflexivity].
    apply H1 in E as [pre E]. rewrite E, length_app in Hlen. simpl in Hlen. lia.
  - intros p. destruct (isTargetMatch w "build" (p +:+ "/backend")) eqn:E; [|reflexivity].
    apply H1 in E as [pre E].
    change (p +:+ "/backend") with (p +:+ String Path.sep "backend") in E.
    rewrite split_app_sep in E. change (Path.split "backend") with ["backend"] in E.
    change (pre ++ ["android"; "app"]) with (pre ++ ["android"] ++ ["app"]) in E.
    rewrite app_assoc in E. apply app_inj_tail in E as [_ E]. discriminate.
Qed.

Lemma lstat_child w comps nm :
  plains comps -> Path.plain nm = true ->
  lstat w (Path.join (Path.render comps) nm) =
  match lookup (root w) comps with
  | Returned m => lookup m [nm]
  | Thrown e => Thrown e
  end.
Proof.
  intros Hc Hn. rewrite (join_render _ _ Hc Hn).
  rewrite lstat_render by (apply plains_snoc; assumption).
  apply lookup_snoc.
Qed.

(** What the existence test answers for an entry of a directory. *)
Lemma accessSync_child w comps nm p es :
  plains comps -> Path.plain nm = true ->
  lookup (root w) comps = Returned (Dir p es) ->
  accessSync w (Path.join (Path.render comps) nm) =
  if p_x p then
    match find_entry nm es with
    | Some (Symlink false) => Thrown ENOENT
    | Some _ => Returned tt
    | None => Thrown ENOENT
    end
  else Thrown EACCES.
Proof.
  intros Hc Hn Hl. unfold accessSync. rewrite (lstat_child _ _ _ Hc Hn), Hl. simpl.
  destruct (p_x p); [|reflexivity].
  destruct (find_entry nm es) as [[sz|[|]|p' es']|]; reflexivity.
Qed.

(** C2, as stated, fails: [vendor] matches beside an entry named
    [Gemfile] that is a directory, where no file of that name exists. *)
Lemma vendor_matches_beside_Gemfile_directory :
  ~ (forall w entryDir,
       isTargetMatch w "vendor" entryDir = true <->
       spec_siblingFileExists w entryDir "Gemfile" = true).
Proof.
  intros H. specialize (H gemdir_world "/proj").
  assert (E : isTargetMatch gemdir_world "vendor" "/proj" = true) by (vm_compute; reflexivity).
  apply H in E. vm_compute in E. discriminate.
Qed.

(** C2, amended: a directory named [vendor] matches exactly when the
    existence test on [Gemfile] in its parent directory returns; in a
    parent directory that exists, that is when the directory can be
    searched and has an entry named [Gemfile] of any type (a file, a
    directory, or a link whose target exists). *)
Theorem vendor_matches_iff_Gemfile_entry w entryDir :
  (isTargetMatch w "vendor" entryDir = true <->
   accessSync w (Path.join entryDir "Gemfile") = Returned tt) /\
  (forall p es,
     Path.isResolved entryDir = true ->
     lstat w entryDir = Returned (Dir p es) ->
     (isTargetMatch w "vendor" entryDir = true <->
      p_x p = true /\
      exists n, find_entry "Gemfile" es = Some n /\ n <> Symlink false)).
Proof.
  assert (H1 : isTargetMatch w "vendor" entryDir =
               match accessSync w (Path.join entryDir "Gemfile") with
               | Returned _ => true | Thrown _ => false end).
  { apply (isTargetMatch_sibling_rule w (mkTarget "vendor" (sibling "Gemfile")));
      [do 8 right; left; reflexivity | reflexivity]. }
  split.
  - rewrite H1. destruct (accessSync w _) as [[]|e]; split; congruence.
  - intros p es Hres Hl. apply isResolved_spec in Hres as (comps & Hc & ->).
    rewrite lstat_render in Hl by exact Hc.
    rewrite H1, (accessSync_child _ _ "Gemfile" p es Hc eq_refl Hl).
    destruct (p_x p); [|split; [discriminate | intros [? _]; discriminate]].
    split.
    + intros H. split; [reflexivity|].
      destruct (find_entry "Gemfile" es) as [n|]; [|discriminate].
      exists n. split; [reflexivity|]. intros ->. discriminate.
    + intros (_ & n & -> & Hn).
      destruct n as [sz|[|]|p' es']; try reflexivity. contradiction.
Qed.

Lemma vendor_matches_iff_Gemfile_entry_witness :
  isTargetMatch gemdir_world "vendor" "/proj" = true <->
  p_x rwx = true /\
  exists n, find_entry "Gemfile" [("vendor", Dir rwx []); ("Gemfile", Dir rwx [])] = Some n
            /\ n <> Symlink false.
Proof.
  apply (proj2 (vendor_matches_iff_Gemfile_entry gemdir_world "/proj")); reflexivity.
Defined.

(** C7: the sibling test fails closed.  Whatever error the existence
    test throws, the candidate does not match, and [isTargetMatch] returns
    [false] rather than an error; in particular this holds when the sibling
    is absent and when the parent directory may not be searched. *)
Theorem sibling_check_fails_closed t s :
  In t TARGETS -> t_match t = sibling s ->
  forall w entryDir,
    (forall e, accessSync w (Path.join entryDir s) = Thrown e ->
               isTargetMatch w (t_name t) entryDir = false) /\
    (forall p es,
       Path.isResolved entryDir = true ->
       lstat w entryDir = Returned (Dir p es) ->
       find_entry s es = None \/ p_x p = false ->
       isTargetMatch w (t_name t) entryDir = false).
Proof.
  intros Hin Hs w entryDir.
  rewrite (isTargetMatch_sibling_rule w t s entryDir Hin Hs). split.
  - intros e ->. reflexivity.
  - intros p es Hres Hl Hbad. apply isResolved_spec in Hres as (comps & Hc & ->).
    rewrite lstat_render in Hl by exact Hc.
    assert (Hpl : Path.plain s = true).
    { unfold TARGETS in Hin. simpl in Hin.
      repeat (destruct Hin as [<- | Hin]; [try discriminate Hs|]); [| |destruct Hin];
        injection Hs as <-; reflexivity. }
    rewrite (accessSync_child _ _ s p es Hc Hpl Hl).
    destruct Hbad as [-> | ->]; [destruct (p_x p)|]; reflexivity.
Qed.

(** ** The walker *)

(** The records of a scan, with what is known of each. *)
Lemma scan_results w rootPath :
  wf_world w = true -> Path.isResolved rootPath = true ->
  exists rc results,
    plains rc /\ rootPath = Path.render rc /\
    scan w rootPath = Some results /\
    forall m, In m results ->
      exists rest, Trail w rc rest /\ plains rest /\ m = record_of rc rest.
Proof.
  intros Hwf Hres. apply isResolved_spec in Hres as (rc & Hc & ->).
  destruct (scan_total w Hwf rc Hc) as [results Hs].
  exists rc, results. repeat split; auto.
  intros m Hin. pose proof (scan_sound w Hwf rc results Hc Hs) as Hall.
  rewrite List.Forall_forall in Hall. destruct (Hall m Hin) as (rest & T & ->).
  exists rest. repeat split; auto. apply (Trail_plain w rc rest Hwf Hc T).
Qed.

(** A path at or below the root of the scan continues the root's
    components. *)
Lemma below_root rc p :
  plains rc -> Path.isResolved p = true ->
  p = Path.render rc \/ Path.isStrictDescendant (Path.render rc) p = true ->
  exists pre, plains pre /\ p = Path.render (rc ++ pre).
Proof.
  intros Hc Hp. apply isResolved_spec in Hp as (pc & Hpc & ->).
  intros [E | E].
  - apply render_inj in E; [|assumption..]. subst pc. exists [].
    rewrite app_nil_r. split; [constructor | reflexivity].
  - apply isStrictDescendant_render in E as (x & more & ->); [|assumption..].
    exists (x :: more). split; [|reflexivity].
    apply Forall_app in Hpc. apply Hpc.
Qed.

(** Where a record can lie with respect to an entry [nm] of a directory at
    or below the root: at the entry only if it matched there, below it only
    if the walker went through it. *)
Lemma record_and_entry w rc rest pre nm :
  plains rc -> plains pre -> Path.plain nm = true ->
  Trail w rc rest -> plains rest ->
  (m_path (record_of rc rest) = Path.join (Path.render (rc ++ pre)) nm ->
     has SKIP_DIRS nm = false /\
     isTargetMatch w nm (Path.render (rc ++ pre)) = true) /\
  (Path.isStrictDescendant (Path.join (Path.render (rc ++ pre)) nm)
     (m_path (record_of rc rest)) = true ->
     has SKIP_DIRS nm = false /\
     isTargetMatch w nm (Path.render (rc ++ pre)) = false /\
     has TARGET_NAMES nm = false).
Proof.
  intros Hc Hpre Hn T Hrest.
  assert (Hcp : plains (rc ++ pre)) by (apply Forall_app; split; assumption).
  rewrite (join_render _ _ Hcp Hn). simpl.
  assert (Hcr : plains (rc ++ rest)) by (apply Forall_app; split; assumption).
  assert (Hcpn : plains ((rc ++ pre) ++ [nm])) by (apply plains_snoc; assumption).
  split.
  - intros E. apply render_inj in E; [|assumption..].
    rewrite <- app_assoc in E. apply app_inv_head in E.
    destruct (Trail_inside w rc rest T pre nm [] E) as (Hs & _ & Hm & _).
    split; [exact Hs | apply Hm; reflexivity].
  - intros E. apply isStrictDescendant_render in E as (x & more & E); [|assumption..].
    rewrite <- !app_assoc in E. apply app_inv_head in E. simpl in E.
    destruct (Trail_inside w rc rest T pre nm (x :: more) E) as (Hs & _ & _ & Hm).
    split; [exact Hs | apply Hm; discriminate].
Qed.

(** C1: a scan returns, and no record of its result lies strictly below
    another: the walker never enters a directory it has matched (so a
    [node_modules] inside a matched [node_modules] is never reported). *)
Theorem scan_never_enters_a_match w rootPath :
  wf_world w = true -> Path.isResolved rootPath = true ->
  exists results,
    scan w rootPath = Some results /\
    forall m1 m2, In m1 results -> In m2 results ->
      Path.isStrictDescendant (m_path m1) (m_path m2) = false.
Proof.
  intros Hwf Hres.
  destruct (scan_results w rootPath Hwf Hres) as (rc & results & Hc & -> & Hs & Hall).
  exists results. split; [exact Hs|]. intros m1 m2 H1 H2.
  destruct (Hall m1 H1) as (r1 & T1 & Hr1 & ->).
  destruct (Hall m2 H2) as (r2 & T2 & Hr2 & ->).
  destruct (Path.isStrictDescendant _ _) eqn:E; [|reflexivity]. exfalso.
  simpl in E. apply isStrictDescendant_render in E as (x & more & E);
    [|apply Forall_app; split; assumption..].
  rewrite <- app_assoc in E. apply app_inv_head in E. subst r2.
  exact (Trail_no_extension w rc r1 T1 x more T2).
Qed.

(** C5: a scan returns, and for a known target name [nm] that fails its
    check in a directory [p] at or below the root, no record of the result
    is at [p/nm] or anywhere below it. *)
Theorem scan_prunes_unconfirmed_targets w rootPath :
  wf_world w = true -> Path.isResolved rootPath = true ->
  exists results,
    scan w rootPath = Some results /\
    forall p nm,
      Path.isResolved p = true ->
      p = rootPath \/ Path.isStrictDescendant rootPath p = true ->
      Path.plain nm = true ->
      has TARGET_NAMES nm = true ->
      isTargetMatch w nm p = false ->
      forall m, In m results ->
        m_path m <> Path.join p nm /\
        Path.isStrictDescendant (Path.join p nm) (m_path m) = false.
Proof.
  intros Hwf Hres.
  destruct (scan_results w rootPath Hwf Hres) as (rc & results & Hc & -> & Hs & Hall).
  exists results. split; [exact Hs|].
  intros p nm Hp Hbelow Hn Ht Hm m Hin.
  destruct (below_root rc p Hc Hp Hbelow) as (pre & Hpre & ->).
  destruct (Hall m Hin) as (rest & T & Hrest & ->).
  destruct (record_and_entry w rc rest pre nm Hc Hpre Hn T Hrest) as [Hat Hbel].
  split.
  - intros E. destruct (Hat E) as [_ E']. congruence.
  - destruct (Path.isStrictDescendant (Path.join _ nm) _) eqn:E; [|reflexivity].
    destruct (Hbel eq_refl) as (_ & _ & E'). congruence.
Qed.

Lemma not_target_no_match w nm dir :
  has TARGET_NAMES nm = false -> isTargetMatch w nm dir = false.
Proof.
  intros H. destruct (isTargetMatch w nm dir) eqn:E; [|reflexivity].
  apply isTargetMatch_known in E. congruence.
Qed.

(** Scanning a listed directory that is neither skipped nor a target name
    finds what a scan started inside it finds. *)
Lemma scan_enters_ordinary w rc nm inner results :
  wf_world w = true -> plains rc ->
  listed w rc nm ->
  has SKIP_DIRS nm = false -> has TARGET_NAMES nm = false ->
  scan w (Path.render (rc ++ [nm])) = Some inner ->
  scan w (Path.render rc) = Some results ->
  forall m, In m inner -> In m results.
Proof.
  intros Hwf Hc Hl Hs Ht Hin Hres m Hm.
  pose proof (listed_plain w rc nm Hwf Hc Hl) as Hn.
  pose proof (scan_sound w Hwf _ _ (plains_snoc _ _ Hc Hn) Hin) as Hall.
  rewrite List.Forall_forall in Hall. destruct (Hall m Hm) as (rest & T & ->).
  rewrite (record_of_step _ _ _ (Trail_not_nil _ _ _ T)).
  apply (walk_complete w rc (nm :: rest) Hwf Hc) with (fuel := S (height (root w))) (acc := []);
    [|exact Hres].
  apply Trail_step; auto. apply not_target_no_match, Ht.
Qed.


Lemma sibling_check_fails_closed_witness :
  (forall e, accessSync sample_world (Path.join "/home/proj/backend" "Cargo.toml") = Thrown e ->
             isTargetMatch sample_world "target" "/home/proj/backend" = false) /\
  (forall p es,
     Path.isResolved "/home/proj/backend" = true ->
     lstat sample_world "/home/proj/backend" = Returned (Dir p es) ->
     find_entry "Cargo.toml" es = None \/ p_x p = false ->
     isTargetMatch sample_world "target" "/home/proj/backend" = false).
Proof.
  apply (sibling_check_fails_closed (mkTarget "target" (sibling "Cargo.toml")) "Cargo.toml");
    [do 10 right; left; reflexivity | reflexivity].
Defined.

Lemma scan_never_enters_a_match_witness :
  exists results,
    scan sample_world "/home/proj" = Some results /\
    forall m1 m2, In m1 results -> In m2 results ->
      Path.isStrictDescendant (m_path m1) (m_path m2) = false.
Proof.
  apply (scan_never_enters_a_match sample_world "/home/proj"); vm_compute; reflexivity.
Defined.

Lemma scan_prunes_unconfirmed_targets_witness :
  exists results,
    scan sample_world "/home/proj" = Some results /\
    forall m, In m results ->
      m_path m <> Path.join "/home/proj/backend" "target" /\
      Path.isStrictDescendant (Path.join "/home/proj/backend" "target") (m_path m) = false.
Proof.
  destruct (scan_prunes_unconfirmed_targets sample_world "/home/proj")
    as (results & Hs & H); [vm_compute; reflexivity..|].
  exists results. split; [exact Hs|].
  apply (H "/home/proj/backend" "target"); try (vm_compute; reflexivity).
  right. vm_compute. reflexivity.
Defined.


Example scan_sample :
  option_map (map m_path) (scan sample_world "/home/proj") =
  Some ["/home/proj/node_modules"; "/home/proj/ios/Pods"; "/home/proj/rustcrate/target";
        "/home/proj/.svn/dist"; "/home/proj/rb/vendor"; "/home/proj/android/app/build"].
Proof. vm_compute. reflexivity. Qed.

(** ** Deletion *)

Lemma replace_entry_same c ch es :
  find_entry c es = Some ch -> replace_entry c ch es = es.
Proof.
  induction es as [|[nm ch0] es IH]; simpl; [reflexivity|].
  destruct (String.eqb nm c); [intros [= ->]; reflexivity|].
  intros H. rewrite (IH H). reflexivity.
Qed.

Lemma remove_at_absent n comps :
  lookup n comps = Thrown ENOENT -> remove_at n comps = (Returned tt, n).
Proof.
  revert n. induction comps as [|c cs IH]; intros n; simpl; [discriminate|].
  destruct n as [sz|[|]|p es]; try discriminate; [reflexivity|].
  destruct (p_x p); [|discriminate].
  destruct (find_entry c es) as [ch|] eqn:E; [|reflexivity].
  destruct cs as [|c' cs']; [discriminate|].
  intros H. rewrite (IH _ H), (replace_entry_same _ _ _ E). reflexivity.
Qed.

(** A path that names nothing: the forced removal returns and changes
    nothing. *)
Lemma rmSync_absent w p :
  lstat w p = Thrown ENOENT -> rmSync w p = (Returned tt, w).
Proof.
  unfold lstat, rmSync. destruct (String.eqb p ""); [reflexivity|].
  intros H. rewrite (remove_at_absent _ _ H). destruct w; reflexivity.
Qed.

Lemma find_remove_entry c es : find_entry c (remove_entry c es) = None.
Proof.
  induction es as [|[nm ch] es IH]; simpl; [reflexivity|].
  destruct (String.eqb_spec nm c) as [->|Hne]; simpl; [exact IH|].
  apply String.eqb_neq in Hne. rewrite Hne. exact IH.
Qed.

Lemma find_replace_entry c n es ch :
  find_entry c es = Some ch -> find_entry c (replace_entry c n es) = Some n.
Proof.
  induction es as [|[nm ch0] es IH]; simpl; [discriminate|].
  destruct (String.eqb nm c) eqn:E; simpl; rewrite E; [reflexivity | exact IH].
Qed.

Lemma find_replace_entry_ne c c' n es :
  c' <> c -> find_entry c' (replace_entry c n es) = find_entry c' es.
Proof.
  intros Hne. induction es as [|[nm ch0] es IH]; simpl; [reflexivity|].
  destruct (String.eqb_spec nm c) as [->|Hnm]; simpl.
  - apply not_eq_sym in Hne. apply String.eqb_neq in Hne. rewrite Hne. reflexivity.
  - destruct (String.eqb nm c'); [reflexivity | exact IH].
Qed.

Lemma find_remove_entry_ne c c' es :
  c' <> c -> find_entry c' (remove_entry c es) = find_entry c' es.
Proof.
  intros Hne. induction es as [|[nm ch0] es IH]; simpl; [reflexivity|].
  destruct (String.eqb_spec nm c) as [->|Hnm]; simpl.
  - apply not_eq_sym in Hne. apply String.eqb_neq in Hne. rewrite Hne. exact IH.
  - destruct (String.eqb nm c'); [reflexivity | exact IH].
Qed.

Lemma remove_at_gone n comps n' :
  remove_at n comps = (Returned tt, n') -> lookup n' comps = Thrown ENOENT.
Proof.
  revert n n'. induction comps as [|c cs IH]; intros n n'; simpl; [discriminate|].
  destruct n as [sz|[|]|p es]; try discriminate.
  - intros [= <-]. reflexivity.
  - destruct (p_x p) eqn:Hx; [|discriminate].
    destruct (find_entry c es) as [ch|] eqn:E.
    + destruct cs as [|c' cs'].
      * destruct (p_w p); [|discriminate].
        destruct (rimraf ch); [discriminate|].
        intros [= <-]. simpl. rewrite Hx, find_remove_entry. reflexivity.
      * destruct (remove_at ch (c' :: cs')) as [o ch'] eqn:R.
        intros [= -> <-]. cbn [lookup]. rewrite Hx.
        rewrite (find_replace_entry _ _ _ _ E). apply (IH _ _ R).
    + intros [= <-]. cbn [lookup]. rewrite Hx, E. reflexivity.
Qed.

(** After a removal that returned, the path names nothing. *)
Lemma rmSync_gone w p w' :
  rmSync w p = (Returned tt, w') -> lstat w' p = Thrown ENOENT.
Proof.
  unfold rmSync, lstat. destruct (String.eqb p ""); [reflexivity|].
  destruct (remove_at (root w) _) as [o n'] eqn:R. intros [= -> <-]. simpl.
  apply (remove_at_gone _ _ _ R).
Qed.

(** *** Removal only takes objects away *)

Lemma find_entry_names c es ch : find_entry c es = Some ch -> In c (map fst es).
Proof.
  induction es as [|[nm ch0] es IH]; simpl; [discriminate|].
  destruct (String.eqb_spec nm c) as [->|_]; [left; reflexivity|].
  intros H. right. apply IH, H.
Qed.

Lemma find_entry_none c es : ~ In c (map fst es) -> find_entry c es = None.
Proof.
  intros H. destruct (find_entry c es) eqn:E; [|reflexivity].
  apply find_entry_names in E. contradiction.
Qed.

Lemma unique_names_dir p es :
  unique_names (Dir p es) = true <->
  NoDup (map fst es) /\ Forall (fun e => unique_names (snd e) = true) es.
Proof.
  simpl. rewrite andb_true_iff, bool_decide_eq_true, forallb_forall, List.Forall_forall.
  reflexivity.
Qed.

Lemma shrinks_lookup_absent n n' comps :
  shrinks n n' -> lookup n comps = Thrown ENOENT -> lookup n' comps = Thrown ENOENT.
Proof.
  revert n n'. induction comps as [|c cs IH]; intros n n' S; [discriminate|].
  inversion S as [|p es es' Hsub]; subst; [trivial|]. cbn [lookup].
  destruct (p_x p); [|discriminate].
  destruct (find_entry c es') as [ch'|] eqn:E'; [|reflexivity].
  destruct (Hsub _ _ E') as (ch & -> & Sch). apply (IH _ _ Sch).
Qed.

Lemma rm_children_names rm es : 
  exists k, map fst (rm_children rm es) = drop k (map fst es).
Proof.
  induction es as [|e es IH]; simpl; [exists 0%nat; reflexivity|].
  destruct (rm (snd e)) as [ch'|].
  - exists 0%nat. reflexivity.
  - destruct IH as [k Hk]. exists (S k). exact Hk.
Qed.

Lemma NoDup_drop {A} k (l : list A) : NoDup l -> NoDup (drop k l).
Proof.
  intros H. eapply sublist_NoDup; [exact H | apply sublist_drop].
Qed.

Lemma rimraf_shrinks n :
  unique_names n = true ->
  forall n', rimraf n = Some n' -> shrinks n n' /\ unique_names n' = true.
Proof.
  induction n as [sz|b|p es IH] using node_ind'; intros Hu n'; simpl; try discriminate.
  destruct es as [|e0 es0]; [discriminate|].
  destruct (p_r p && p_w p && p_x p); [|intros [= <-]; split; [constructor | exact Hu]].
  set (es := e0 :: es0) in *.
  destruct (rm_children rimraf es) as [|r rs] eqn:R; [discriminate|].
  intros [= <-]. rewrite <- R. clear r rs R.
  apply unique_names_dir in Hu as [Hnd Hall].
  assert (H : (forall c ch', find_entry c (rm_children rimraf es) = Some ch' ->
                 exists ch, find_entry c es = Some ch /\ shrinks ch ch') /\
              Forall (fun e => unique_names (snd e) = true) (rm_children rimraf es)).
  { clearbody es. clear e0 es0.
    induction es as [|e es IHes]; simpl; [split; [discriminate | constructor]|].
    inversion IH as [|? ? IHe IHrest]; subst.
    inversion Hall as [|? ? Hue Hurest]; subst.
    simpl in Hnd. apply NoDup_cons in Hnd as [Hnotin Hnd'].
    destruct (rimraf (snd e)) as [ch'|] eqn:Re.
    - destruct (IHe Hue _ eq_refl) as [Se Ue]. split.
      + intros c x. destruct e as [nm ch]. simpl.
        destruct (String.eqb nm c); [intros [= <-]; eauto|].
        intros ->. eexists. split; [reflexivity | constructor].
      + constructor; [exact Ue | exact Hurest].
    - destruct (IHes IHrest Hnd' Hurest) as [Hsub Hu']. split; [|exact Hu'].
      intros c x Hx. destruct (Hsub c x Hx) as (ch & Hch & Sch).
      exists ch. split; [|exact Sch]. destruct e as [nm ch0]. simpl.
      destruct (String.eqb_spec nm c) as [->|_]; [|exact Hch].
      exfalso. apply Hnotin. apply list_elem_of_In.
      eapply find_entry_names, Hch. }
  destruct H as [Hsub Hu']. split; [constructor; exact Hsub|].
  apply unique_names_dir. split; [|exact Hu'].
  destruct (rm_children_names rimraf es) as [k ->]. apply NoDup_drop, Hnd.
Qed.

Lemma map_fst_replace_entry c n es : map fst (replace_entry c n es) = map fst es.
Proof.
  induction es as [|[nm ch] es IH]; simpl; [reflexivity|].
  destruct (String.eqb nm c); simpl; congruence.
Qed.

Lemma replace_entry_unique c n es :
  unique_names n = true ->
  Forall (fun e => unique_names (snd e) = true) es ->
  Forall (fun e => unique_names (snd e) = true) (replace_entry c n es).
Proof.
  intros Hn. induction 1 as [|[nm ch] es He Hes IH]; simpl; [constructor|].
  destruct (String.eqb nm c); constructor; auto.
Qed.

Lemma replace_entry_shrinks p c ch ch' es :
  find_entry c es = Some ch -> shrinks ch ch' ->
  shrinks (Dir p es) (Dir p (replace_entry c ch' es)).
Proof.
  intros E S. constructor. intros c' x.
  destruct (String.eqb_spec c' c) as [->|Hne].
  - rewrite (find_replace_entry _ _ _ _ E). intros [= <-]. eauto.
  - rewrite (find_replace_entry_ne _ _ _ _ Hne). intros ->.
    eexists. split; [reflexivity | constructor].
Qed.

Lemma replace_entry_keeps_unique p c ch' es :
  unique_names (Dir p es) = true -> unique_names ch' = true ->
  unique_names (Dir p (replace_entry c ch' es)) = true.
Proof.
  intros Hu Hc. apply unique_names_dir in Hu as [Hnd Hall].
  apply unique_names_dir. rewrite map_fst_replace_entry.
  split; [exact Hnd | apply replace_entry_unique; assumption].
Qed.

Lemma find_entry_unique p es c ch :
  unique_names (Dir p es) = true -> find_entry c es = Some ch -> unique_names ch = true.
Proof.
  intros Hu E. apply unique_names_dir in Hu as [_ Hall].
  rewrite List.Forall_forall in Hall. apply find_entry_In in E.
  apply (Hall _ E).
Qed.

Lemma NoDup_fst_filter (f : string * node -> bool) es :
  NoDup (map fst es) -> NoDup (map fst (List.filter f es)).
Proof.
  induction es as [|e es IH]; simpl; [trivial|].
  rewrite NoDup_cons. intros [Hnotin Hnd]. destruct (f e); simpl; [|auto].
  apply NoDup_cons. split; [|auto].
  intros Hin. apply Hnotin. apply list_elem_of_In in Hin. apply list_elem_of_In.
  apply in_map_iff in Hin as (e' & <- & He'). apply in_map.
  apply List.filter_In in He'. apply He'.
Qed.

Lemma remove_entry_keeps_unique p c es :
  unique_names (Dir p es) = true -> unique_names (Dir p (remove_entry c es)) = true.
Proof.
  intros Hu. apply unique_names_dir in Hu as [Hnd Hall].
  apply unique_names_dir. unfold remove_entry. split.
  - apply NoDup_fst_filter, Hnd.
  - rewrite List.Forall_forall in *. intros e He.
    apply List.filter_In in He as [He _]. apply Hall, He.
Qed.

Lemma remove_at_shrinks comps : forall n o n',
  unique_names n = true -> remove_at n comps = (o, n') ->
  shrinks n n' /\ unique_names n' = true.
Proof.
  induction comps as [|c cs IH]; intros n o n' Hu; simpl.
  - intros [= _ <-]. split; [constructor | exact Hu].
  - assert (Hsame : forall o0, (o0, n) = (o, n') -> shrinks n n' /\ unique_names n' = true)
      by (intros o0 [= _ <-]; split; [constructor | exact Hu]).
    destruct n as [sz|[|]|p es]; try apply Hsame.
    destruct (p_x p); [|apply Hsame].
    destruct (find_entry c es) as [ch|] eqn:E; [|apply Hsame].
    pose proof (find_entry_unique _ _ _ _ Hu E) as Huc.
    destruct cs as [|c' cs'].
    + destruct (p_w p); [|apply Hsame].
      destruct (rimraf ch) as [ch'|] eqn:R.
      * destruct (rimraf_shrinks ch Huc ch' R) as [S U]. intros [= _ <-]. split.
        -- apply (replace_entry_shrinks _ _ _ _ _ E S).
        -- apply replace_entry_keeps_unique; assumption.
      * intros [= _ <-]. split; [|apply remove_entry_keeps_unique, Hu].
        constructor. intros c'' x.
        destruct (String.eqb_spec c'' c) as [->|Hne].
        -- rewrite find_remove_entry. discriminate.
        -- rewrite (find_remove_entry_ne _ _ _ Hne). intros ->.
           eexists. split; [reflexivity | constructor].
    + destruct (remove_at ch (c' :: cs')) as [o' ch'] eqn:R.
      destruct (IH _ _ _ Huc R) as [S U]. intros [= _ <-]. split.
      * apply (replace_entry_shrinks _ _ _ _ _ E S).
      * apply replace_entry_keeps_unique; assumption.
Qed.

(** A path that names nothing still names nothing after any removal. *)
Lemma rmSync_keeps_absent w q p :
  unique_names (root w) = true ->
  lstat w p = Thrown ENOENT ->
  lstat (snd (rmSync w q)) p = Thrown ENOENT /\
  unique_names (root (snd (rmSync w q))) = true.
Proof.
  intros Hu Hp. unfold rmSync. destruct (String.eqb q ""); [split; assumption|].
  destruct (remove_at (root w) _) as [o n'] eqn:R. simpl.
  destruct (remove_at_shrinks _ _ _ _ Hu R) as [S U]. split; [|exact U].
  unfold lstat in *. simpl. destruct (String.eqb p ""); [reflexivity|].
  apply (shrinks_lookup_absent _ _ _ S Hp).
Qed.

Lemma rmSync_keeps_unique w q :
  unique_names (root w) = true -> unique_names (root (snd (rmSync w q))) = true.
Proof.
  intros Hu. unfold rmSync. destruct (String.eqb q ""); [exact Hu|].
  destruct (remove_at (root w) _) as [o n'] eqn:R. simpl.
  apply (remove_at_shrinks _ _ _ _ Hu R).
Qed.

(** *** The loop of [deleteResults] *)

Lemma delete_loop results : forall st,
  let d := fold_left delete_one results st in
  let oks := attempts (d_fs st) results in
  failed d = (failed st + count_occ bool_dec oks false)%nat /\
  length (failures d) = (length (failures st) + count_occ bool_dec oks false)%nat /\
  freed d = (freed st + freed_bytes results oks)%Z /\
  length oks = length results.
Proof.
  induction results as [|r rs IH]; intros st; simpl.
  - repeat split; lia.
  - unfold delete_one at 2 4 6.
    destruct (rmSync (d_fs st) (m_path r)) as [[[]|e] w'].
    + specialize (IH (mkDeletion w' (freed st + m_size r) (failed st) (failures st))).
      simpl in *. destruct IH as (H1 & H2 & H3 & H4). repeat split; lia.
    + specialize (IH (mkDeletion w' (freed st) (S (failed st)) (failures st ++ [(m_name r, e)]))).
      simpl in *. rewrite length_app in IH. simpl in IH.
      destruct IH as (H1 & H2 & H3 & H4). repeat split; lia.
Qed.

Lemma delete_loop_names results : forall st,
  map fst (failures (fold_left delete_one results st)) =
  map fst (failures st) ++ failed_names results (attempts (d_fs st) results).
Proof.
  induction results as [|r rs IH]; intros st; simpl.
  - symmetry. apply app_nil_r.
  - unfold delete_one at 2.
    destruct (rmSync (d_fs st) (m_path r)) as [[[]|e] w']; rewrite IH; simpl.
    + reflexivity.
    + rewrite map_app, <- app_assoc. reflexivity.
Qed.

Lemma delete_loop_gone results : forall st,
  unique_names (root (d_fs st)) = true ->
  let d := fold_left delete_one results st in
  unique_names (root (d_fs d)) = true /\
  (forall p, lstat (d_fs st) p = Thrown ENOENT -> lstat (d_fs d) p = Thrown ENOENT) /\
  (forall i r, results !! i = Some r ->
     attempts (d_fs st) results !! i = Some true ->
     lstat (d_fs d) (m_path r) = Thrown ENOENT).
Proof.
  induction results as [|r rs IH]; intros st Hu; simpl.
  - repeat split; auto. intros i r H. destruct i; discriminate.
  - pose proof (rmSync_keeps_unique (d_fs st) (m_path r) Hu) as Hu'.
    pose proof (fun p => rmSync_keeps_absent (d_fs st) (m_path r) p Hu) as Hk.
    pose proof (rmSync_gone (d_fs st) (m_path r)) as Hg.
    unfold delete_one at 2 4 6.
    destruct (rmSync (d_fs st) (m_path r)) as [[[]|e] w']; simpl in Hu', Hk.
    + specialize (IH (mkDeletion w' (freed st + m_size r) (failed st) (failures st)) Hu').
      simpl in IH. destruct IH as (U & Hp & Hi). split; [exact U|]. split.
      * intros p H. apply Hp, Hk, H.
      * intros [|i] r'; simpl.
        -- intros [= <-] _. apply Hp, (Hg w' eq_refl).
        -- apply Hi.
    + specialize (IH (mkDeletion w' (freed st) (S (failed st))
                        (failures st ++ [(m_name r, e)])) Hu').
      simpl in IH. destruct IH as (U & Hp & Hi). split; [exact U|]. split.
      * intros p H. apply Hp, Hk, H.
      * intros [|i] r'; simpl; [discriminate | apply Hi].
Qed.

Lemma count_occ_bool (l : list bool) :
  (count_occ bool_dec l true + count_occ bool_dec l false = length l)%nat.
Proof. induction l as [|[] l IH]; simpl; lia. Qed.

(** C3, as stated, fails: a record whose path names nothing is not
    counted as a failure. *)
Lemma vanished_path_is_not_a_failure :
  ~ (forall st r,
       lstat (d_fs st) (m_path r) = Thrown ENOENT ->
       failed (delete_one st r) = S (failed st) /\
       freed (delete_one st r) = freed st).
Proof.
  intros H.
  destruct (H (mkDeletion locked_world 0 0 []) (mkMatch "target" "/proj/target" 4096))
    as [H1 _]; [reflexivity|].
  vm_compute in H1. discriminate.
Qed.

(** C3, amended: for a record whose path no longer names anything, the
    forced removal returns without a change: the failure counter and the
    list of failures stay as they are, the record's size is added to
    [freed], and the file system is left as it was. *)
Theorem vanished_path_counts_as_freed st r :
  lstat (d_fs st) (m_path r) = Thrown ENOENT ->
  delete_one st r =
  mkDeletion (d_fs st) (freed st + m_size r) (failed st) (failures st).
Proof.
  intros H. unfold delete_one. rewrite (rmSync_absent _ _ H). reflexivity.
Qed.

Lemma vanished_path_counts_as_freed_witness :
  delete_one (mkDeletion locked_world 0 0 []) (mkMatch "target" "/proj/target" 4096) =
  mkDeletion locked_world (0 + 4096) 0 [].
Proof.
  apply (vanished_path_counts_as_freed (mkDeletion locked_world 0 0 [])
           (mkMatch "target" "/proj/target" 4096)).
  reflexivity.
Defined.

(** C6: when exactly one removal of a batch throws, [deleteResults] still
    runs through the whole batch: it reports one failure, under the name of
    that record, all the other records are removed (their paths name
    nothing afterwards), and [freed] is the sum of their sizes. *)
Theorem one_failure_does_not_abort_the_batch w results :
  unique_names (root w) = true ->
  count_occ bool_dec (attempts w results) false = 1%nat ->
  let d := deleteResults w results in
  failed d = 1%nat /\
  length (failures d) = 1%nat /\
  map fst (failures d) = failed_names results (attempts w results) /\
  count_occ bool_dec (attempts w results) true = (length results - 1)%nat /\
  freed d = freed_bytes results (attempts w results) /\
  (forall i r, results !! i = Some r ->
     attempts w results !! i = Some true ->
     lstat (d_fs d) (m_path r) = Thrown ENOENT).
Proof.
  intros Hu Hone d. subst d. unfold deleteResults.
  destruct (delete_loop results (mkDeletion w 0 0 [])) as (H1 & H2 & H3 & H4).
  destruct (delete_loop_gone results (mkDeletion w 0 0 []) Hu) as (_ & _ & H5).
  pose proof (delete_loop_names results (mkDeletion w 0 0 [])) as H6.
  pose proof (count_occ_bool (attempts w results)) as H7.
  simpl in *. rewrite Hone in *. repeat split; auto; lia.
Qed.

Lemma one_failure_does_not_abort_the_batch_witness :
  let d := deleteResults locked_world locked_records in
  failed d = 1%nat /\
  length (failures d) = 1%nat /\
  map fst (failures d) = failed_names locked_records (attempts locked_world locked_records) /\
  count_occ bool_dec (attempts locked_world locked_records) true
    = (length locked_records - 1)%nat /\
  freed d = freed_bytes locked_records (attempts locked_world locked_records) /\
  (forall i r, locked_records !! i = Some r ->
     attempts locked_world locked_records !! i = Some true ->
     lstat (d_fs d) (m_path r) = Thrown ENOENT).
Proof.
  apply (one_failure_does_not_abort_the_batch locked_world locked_records);
    vm_compute; reflexivity.
Defined.

Example locked_batch :
  attempts locked_world locked_records = [true; false; true] /\
  freed (deleteResults locked_world locked_records) = 5120%Z /\
  failures (deleteResults locked_world locked_records) = [("dist", EACCES)].
Proof. repeat split; vm_compute; reflexivity. Qed.

(** ** Main *)

Lemma parseArg_dryRun args arg :
  dryRun (parseArg args arg) = dryRun args || wantsDryRun arg.
Proof.
  unfold parseArg, wantsDryRun.
  destruct (String.eqb_spec arg "-d") as [->|H1]; [simpl; apply eq_sym, orb_true_r|].
  destruct (String.eqb_spec arg "--dry-run") as [->|H2]; [simpl; apply eq_sym, orb_true_r|].
  simpl. rewrite orb_false_r.
  repeat (match goal with |- context [if ?c then _ else _] => destruct c end; try reflexivity).
Qed.

Lemma fold_parseArg_dryRun l : forall args,
  dryRun (fold_left parseArg l args) = dryRun args || existsb wantsDryRun l.
Proof.
  induction l as [|a l IH]; intros args; simpl.
  - symmetry. apply orb_false_r.
  - rewrite IH, parseArg_dryRun, orb_assoc. reflexivity.
Qed.

Lemma parseArgs_dryRun argv :
  dryRun (parseArgs argv) = true <->
  In "-d" (drop 2 argv) \/ In "--dry-run" (drop 2 argv).
Proof.
  unfold parseArgs. rewrite fold_parseArg_dryRun. simpl. rewrite existsb_exists.
  unfold wantsDryRun. split.
  - intros (x & Hin & Hx). apply orb_true_iff in Hx as [Hx | Hx];
      apply String.eqb_eq in Hx; subst x; auto.
  - intros [H | H]; eexists; (split; [exact H | reflexivity]).
Qed.

(** C9: a dry run can change the file system.  In a tree with a
    directory named [$(rm -rf node_modules)], a run with [--dry-run] ends
    as a dry run, with exit code 0 and without a call of [deleteResults],
    and shows both matches with their sizes; and yet the matched directory
    [node_modules] was there before and is gone afterwards: the sizing
    that comes before the dry-run exit has handed each path to a shell
    between double quotes. *)
Theorem dry_run_runs_commands_in_directory_names :
  exists run,
    main false sh_failing_du (fun _ => true) "" injection_world
      ["node"; "free-dev-space"; "--dry-run"] = Some run /\
    exitCode run = 0%Z /\
    ending run =
      DryRun [mkMatch "dist" "/work/$(rm -rf node_modules)/dist" 900;
              mkMatch "node_modules" "/work/node_modules" 120] /\
    statSync injection_world "/work/node_modules" = Returned KDir /\
    statSync (fs_after run) "/work/node_modules" = Thrown ENOENT /\
    fs_after run = snd (rmSync injection_world "node_modules").
Proof.
  eexists. split; [vm_compute; reflexivity|].
  repeat split.
Qed.

Example injection_scan :
  wf_world injection_world = true /\
  option_map (map m_path) (scan injection_world "/work") =
    Some ["/work/node_modules"; "/work/$(rm -rf node_modules)/dist"] /\
  rm_substitution (du_command "/work/$(rm -rf node_modules)/dist") = Some "node_modules" /\
  rm_substitution (du_command "/work/node_modules") = None.
Proof. repeat split; vm_compute; reflexivity. Qed.

Example dry_run_sample :
  exists results,
    main false no_du (fun _ => true) "y" sample_world
      ["node"; "free-dev-space"; "proj"; "--dry-run"]
    = Some (mkRun 0 (DryRun results) sample_world) /\
    map m_path results =
      ["/home/proj/node_modules"; "/home/proj/ios/Pods"; "/home/proj/rustcrate/target";
       "/home/proj/.svn/dist"; "/home/proj/rb/vendor"; "/home/proj/android/app/build"].
Proof. eexists. split; vm_compute; reflexivity. Qed.

(** * Further properties *)

(** ** Further properties of the matcher *)

Lemma isTargetMatch_from_existsb w targets entryName entryDir :
  isTargetMatch_from w targets entryName entryDir =
  existsb (fun t => String.eqb (t_name t) entryName
                    && strategy_holds w (t_match t) entryDir) targets.
Proof.
  induction targets as [|t targets IH]; simpl; [reflexivity|].
  destruct (String.eqb (t_name t) entryName); simpl; [|exact IH].
  destruct (t_match t) as [|p|parents|s]; simpl.
  - reflexivity.
  - destruct (String.eqb _ p); [reflexivity | exact IH].
  - destruct (_ && _ && _); [reflexivity | exact IH].
  - destruct (accessSync w _); [reflexivity | exact IH].
Qed.

(** X1: [isTargetMatch] returns [true] exactly when some entry of [TARGETS]
    carries the name and passes the test of its strategy: a failed test
    only moves the loop on to the next entry. *)
Theorem isTargetMatch_holds_iff_some_rule_holds w entryName entryDir :
  isTargetMatch w entryName entryDir =
  existsb (fun t => String.eqb (t_name t) entryName
                    && strategy_holds w (t_match t) entryDir) TARGETS.
Proof. unfold isTargetMatch. apply isTargetMatch_from_existsb. Qed.

Lemma isTargetMatch_rule w t entryDir :
  In t TARGETS ->
  isTargetMatch w (t_name t) entryDir = strategy_holds w (t_match t) entryDir.
Proof.
  intros Hin. unfold isTargetMatch. rewrite isTargetMatch_from_existsb.
  unfold TARGETS in *. simpl in Hin.
  repeat (destruct Hin as [<- | Hin];
          [cbn -[strategy_holds]; rewrite ?orb_false_r; reflexivity|]).
  destruct Hin.
Qed.

Lemma last_snoc_iff (comps : list string) p :
  p <> "" -> (List.last comps "" = p <-> exists pre, comps = pre ++ [p]).
Proof.
  intros Hp. split.
  - intros H. destruct comps as [|c cs] using rev_ind; [simpl in H; congruence|].
    rewrite last_last in H. subst. eauto.
  - intros [pre ->]. apply last_last.
Qed.

Lemma render_snoc comps p :
  Path.render (comps ++ [p]) =
  match comps with [] => "/" +:+ p | _ => Path.render comps +:+ "/" +:+ p end.
Proof.
  unfold Path.render. rewrite join_segs_snoc. destruct comps; [reflexivity|].
  simpl. reflexivity.
Qed.

(** X2: a directory under the [parent] strategy ([Pods], [.gradle])
    matches exactly when the base name of its parent path is the required
    name ([ios], [android]); on a resolved path, when the path ends in that
    name as its last component. *)
Theorem parent_rule_matches_iff_parent_name t p :
  In t TARGETS -> t_match t = parent p ->
  forall w entryDir,
    (isTargetMatch w (t_name t) entryDir = true <-> Path.basename entryDir = p) /\
    (Path.isResolved entryDir = true ->
     (isTargetMatch w (t_name t) entryDir = true <->
      exists q, entryDir = q +:+ "/" +:+ p)).
Proof.
  intros Hin Hp w entryDir.
  assert (Hpl : Path.plain p = true).
  { unfold TARGETS in Hin. simpl in Hin.
    repeat (destruct Hin as [<- | Hin]; [try discriminate Hp|]);
      try (injection Hp as <-; reflexivity). destruct Hin. }
  rewrite (isTargetMatch_rule w t entryDir Hin), Hp. simpl. rewrite String.eqb_eq.
  split; [reflexivity|].
  intros Hres. apply isResolved_spec in Hres as (comps & Hc & ->).
  rewrite (basename_render _ Hc).
  apply plain_spec in Hpl as (Hne & _ & _ & Hseg).
  rewrite (last_snoc_iff comps p Hne). split.
  - intros [pre ->]. rewrite render_snoc. destruct pre; [exists ""; reflexivity|].
    eexists. reflexivity.
  - intros [q E]. apply (f_equal Path.split) in E.
    rewrite split_render in E by (apply Forall_plain_segment, Hc).
    change (q +:+ "/" +:+ p) with (q +:+ String Path.sep p) in E.
    rewrite split_app_sep, Hseg in E.
    destruct comps as [|c cs].
    + change ("" :: [""]) with ([""] ++ [""]) in E.
      apply app_inj_tail in E as [_ E]. congruence.
    + pose proof (split_not_nil q) as Hq.
      destruct (Path.split q) as [|x xs]; [contradiction|].
      simpl in E. injection E as _ E. exists xs. exact E.
Qed.

Lemma parent_rule_matches_iff_parent_name_witness :
  (isTargetMatch sample_world "Pods" "/home/proj/ios" = true <->
   Path.basename "/home/proj/ios" = "ios") /\
  (Path.isResolved "/home/proj/ios" = true ->
   (isTargetMatch sample_world "Pods" "/home/proj/ios" = true <->
    exists q, "/home/proj/ios" = q +:+ "/" +:+ "ios")).
Proof.
  apply (parent_rule_matches_iff_parent_name (mkTarget "Pods" (parent "ios")) "ios");
    [right; left; reflexivity | reflexivity].
Defined.

(** X3: a directory under the [parentPath] strategy ([build], [.cxx])
    matches exactly when its parent path is the required pair of names or
    ends in a separator followed by the pair. *)
Theorem parentPath_rule_matches_iff_suffix t a b :
  In t TARGETS -> t_match t = parentPath (a, b) ->
  forall w entryDir,
    isTargetMatch w (t_name t) entryDir = true <->
    entryDir = a +:+ "/" +:+ b \/ exists q, entryDir = q +:+ "/" +:+ a +:+ "/" +:+ b.
Proof.
  intros Hin Hp w entryDir.
  assert (Hseg : segment a /\ segment b).
  { unfold TARGETS in Hin. simpl in Hin.
    repeat (destruct Hin as [<- | Hin]; [try discriminate Hp|]);
      try (injection Hp as <- <-; split; reflexivity). destruct Hin. }
  rewrite (isTargetMatch_rule w t entryDir Hin), Hp. cbn [strategy_holds fst snd].
  rewrite ends_with_pair. apply split_ends_with_pair; apply Hseg.
Qed.

Lemma parentPath_rule_matches_iff_suffix_witness :
  isTargetMatch sample_world ".cxx" "/home/proj/android/app" = true <->
  "/home/proj/android/app" = "android" +:+ "/" +:+ "app" \/
  exists q, "/home/proj/android/app" = q +:+ "/" +:+ "android" +:+ "/" +:+ "app".
Proof.
  apply (parentPath_rule_matches_iff_suffix
           (mkTarget ".cxx" (parentPath ("android", "app"))) "android" "app");
    [do 6 right; left; reflexivity | reflexivity].
Defined.

(** X4: a directory under the [sibling] strategy ([vendor], [target])
    inside an existing directory matches exactly when that directory can
    be searched and has an entry with the sibling's name ([Gemfile],
    [Cargo.toml]) that is not a dangling link. *)
Theorem sibling_rule_matches_iff_entry_exists t s :
  In t TARGETS -> t_match t = sibling s ->
  forall w entryDir p es,
    Path.isResolved entryDir = true ->
    lstat w entryDir = Returned (Dir p es) ->
    (isTargetMatch w (t_name t) entryDir = true <->
     p_x p = true /\ exists n, find_entry s es = Some n /\ n <> Symlink false).
Proof.
  intros Hin Hs w entryDir p es Hres Hl.
  assert (Hpl : Path.plain s = true).
  { unfold TARGETS in Hin. simpl in Hin.
    repeat (destruct Hin as [<- | Hin]; [try discriminate Hs|]);
      try (injection Hs as <-; reflexivity). destruct Hin. }
  rewrite (isTargetMatch_rule w t entryDir Hin), Hs. simpl.
  apply isResolved_spec in Hres as (comps & Hc & ->).
  rewrite lstat_render in Hl by exact Hc.
  rewrite (accessSync_child _ _ s p es Hc Hpl Hl).
  destruct (p_x p); [|split; [discriminate | intros [? _]; discriminate]].
  split.
  - intros H. split; [reflexivity|].
    destruct (find_entry s es) as [n|]; [|discriminate].
    exists n. split; [reflexivity|]. intros ->. discriminate.
  - intros (_ & n & -> & Hn).
    destruct n as [sz|[|]|p' es']; try reflexivity. contradiction.
Qed.

Lemma sibling_rule_matches_iff_entry_exists_witness :
  isTargetMatch sample_world "target" "/home/proj/rustcrate" = true <->
  p_x rwx = true /\
  exists n, find_entry "Cargo.toml" [("target", Dir rwx []); ("Cargo.toml", File 10)] = Some n
            /\ n <> Symlink false.
Proof.
  apply (sibling_rule_matches_iff_entry_exists
           (mkTarget "target" (sibling "Cargo.toml")) "Cargo.toml");
    [do 10 right; left; reflexivity | reflexivity..].
Defined.

(** X5: only the seventeen names of [TARGETS] ever match; no other
    directory name is reported, whatever the file system holds. *)
Theorem only_known_names_match w entryName entryDir :
  isTargetMatch w entryName entryDir = true ->
  In entryName
    ["node_modules"; "Pods"; ".next"; ".nuxt"; ".gradle"; "build"; ".cxx"; "dist";
     "vendor"; ".build"; "target"; "__pycache__"; ".venv"; "venv"; ".dart_tool";
     ".turbo"; ".parcel-cache"].
Proof.
  unfold isTargetMatch. intros H. apply isTargetMatch_from_known in H. exact H.
Qed.

Lemma only_known_names_match_witness :
  In "dist"
    ["node_modules"; "Pods"; ".next"; ".nuxt"; ".gradle"; "build"; ".cxx"; "dist";
     "vendor"; ".build"; "target"; "__pycache__"; ".venv"; "venv"; ".dart_tool";
     ".turbo"; ".parcel-cache"].
Proof.
  apply (only_known_names_match sample_world "dist" "/anywhere"). reflexivity.
Defined.

Lemma strategy_holds_no_fs w w' s entryDir :
  (forall sib, s <> sibling sib) ->
  strategy_holds w s entryDir = strategy_holds w' s entryDir.
Proof. destruct s; try reflexivity. intros H. destruct (H s eq_refl). Qed.

Lemma isTargetMatch_from_no_fs w w' targets entryName entryDir :
  (forall t sib, In t targets -> t_match t = sibling sib -> t_name t <> entryName) ->
  isTargetMatch_from w targets entryName entryDir =
  isTargetMatch_from w' targets entryName entryDir.
Proof.
  intros H. rewrite !isTargetMatch_from_existsb.
  induction targets as [|t targets IH]; [reflexivity|]. cbn [existsb].
  rewrite IH by (intros t' sib Hin; apply H; right; exact Hin). f_equal.
  destruct (String.eqb_spec (t_name t) entryName) as [E|_]; [|reflexivity].
  cbn [andb]. apply strategy_holds_no_fs. intros sib Hs.
  exact (H t sib (or_introl eq_refl) Hs E).
Qed.

(** X6: for every name but [vendor] and [target] the answer of
    [isTargetMatch] does not depend on the file system: it is decided by
    the name and the parent path alone. *)
Theorem match_reads_fs_only_for_siblings w w' entryName entryDir :
  entryName <> "vendor" -> entryName <> "target" ->
  isTargetMatch w entryName entryDir = isTargetMatch w' entryName entryDir.
Proof.
  intros Hv Ht. unfold isTargetMatch. apply isTargetMatch_from_no_fs.
  intros t sib Hin Hs. unfold TARGETS in Hin. simpl in Hin.
  repeat (destruct Hin as [<- | Hin]; [try discriminate Hs; simpl; congruence|]).
  destruct Hin.
Qed.

Lemma match_reads_fs_only_for_siblings_witness :
  isTargetMatch sample_world "Pods" "/home/proj/ios" =
  isTargetMatch gemdir_world "Pods" "/home/proj/ios".
Proof.
  apply (match_reads_fs_only_for_siblings sample_world gemdir_world "Pods" "/home/proj/ios");
    discriminate.
Defined.

(** ** Further properties of the walker *)

Lemma Trail_last w comps rest :
  Trail w comps rest ->
  exists pre nm, rest = pre ++ [nm] /\
    listed w (comps ++ pre) nm /\
    isTargetMatch w nm (Path.render (comps ++ pre)) = true.
Proof.
  intros T. pose proof (Trail_not_nil _ _ _ T) as Hne.
  destruct (exists_last Hne) as (pre & nm & ->).
  destruct (Trail_inside w comps _ T pre nm [] eq_refl) as (_ & Hl & Hm & _).
  exists pre, nm. auto.
Qed.

(** X7: every record of a scan has size [0], carries the base name of
    its path as name, and names an entry that [readdirSync] lists as a
    directory, in a directory at or below the root, where
    [isTargetMatch] accepts it; its path is resolved and lies strictly
    below the root. *)
Theorem scan_reports_matching_directories w rootPath :
  wf_world w = true -> Path.isResolved rootPath = true ->
  exists results,
    scan w rootPath = Some results /\
    forall m, In m results ->
      m_size m = 0%Z /\
      m_name m = Path.basename (m_path m) /\
      Path.isResolved (m_path m) = true /\
      Path.isStrictDescendant rootPath (m_path m) = true /\
      exists dir entries,
        (dir = rootPath \/ Path.isStrictDescendant rootPath dir = true) /\
        m_path m = Path.join dir (m_name m) /\
        readdirSync w dir = Returned entries /\
        In (mkDirent (m_name m) KDir) entries /\
        isTargetMatch w (m_name m) dir = true.
Proof.
  intros Hwf Hres.
  destruct (scan_results w rootPath Hwf Hres) as (rc & results & Hc & -> & Hs & Hall).
  exists results. split; [exact Hs|]. intros m Hin.
  destruct (Hall m Hin) as (rest & T & Hrest & ->).
  destruct (Trail_last w rc rest T) as (pre & nm & -> & (entries & Hrd & Hl) & Hm).
  assert (Hall' : plains (rc ++ pre ++ [nm])) by (apply Forall_app; split; assumption).
  apply Forall_app in Hrest as [Hpre Hnm].
  assert (Hdir : plains (rc ++ pre)) by (apply Forall_app; split; assumption).
  unfold record_of. simpl. rewrite last_last.
  split; [reflexivity|]. split.
  { rewrite (basename_render _ Hall'), app_assoc, last_last. reflexivity. }
  split; [apply isResolved_spec; eauto|]. split.
  { apply (isStrictDescendant_render rc _ Hc Hall').
    destruct pre as [|x pre']; simpl; eauto. }
  exists (Path.render (rc ++ pre)), entries. repeat split; auto.
  - destruct pre as [|x pre']; [left; rewrite app_nil_r; reflexivity|].
    right. apply (isStrictDescendant_render rc _ Hc Hdir). simpl. eauto.
  - inversion Hnm; subst. rewrite (join_render _ _ Hdir) by assumption.
    rewrite app_assoc. reflexivity.
Qed.

Lemma scan_reports_matching_directories_witness :
  exists results,
    scan sample_world "/home/proj" = Some results /\
    forall m, In m results ->
      m_size m = 0%Z /\
      m_name m = Path.basename (m_path m) /\
      Path.isResolved (m_path m) = true /\
      Path.isStrictDescendant "/home/proj" (m_path m) = true /\
      exists dir entries,
        (dir = "/home/proj" \/ Path.isStrictDescendant "/home/proj" dir = true) /\
        m_path m = Path.join dir (m_name m) /\
        readdirSync sample_world dir = Returned entries /\
        In (mkDirent (m_name m) KDir) entries /\
        isTargetMatch sample_world (m_name m) dir = true.
Proof.
  apply (scan_reports_matching_directories sample_world "/home/proj");
    vm_compute; reflexivity.
Defined.

(** X8: a scan reports exactly the directories that are reached from
    the root through listed directories that are neither skipped, nor
    matching, nor known target names, and that match at the end. *)
Theorem scan_finds_every_trail w rootPath :
  wf_world w = true -> Path.isResolved rootPath = true ->
  exists results,
    scan w rootPath = Some results /\
    forall m, In m results <->
      exists rest, Trail w (Path.components rootPath) rest /\
                   m = record_of (Path.components rootPath) rest.
Proof.
  intros Hwf Hres.
  destruct (scan_results w rootPath Hwf Hres) as (rc & results & Hc & -> & Hs & Hall).
  exists results. split; [exact Hs|]. rewrite (components_render _ Hc).
  intros m. split.
  - intros Hin. destruct (Hall m Hin) as (rest & T & _ & ->). eauto.
  - intros (rest & T & ->). apply (walk_complete w rc rest Hwf Hc T _ _ _ Hs).
Qed.

Lemma scan_finds_every_trail_witness :
  exists results,
    scan sample_world "/home/proj" = Some results /\
    forall m, In m results <->
      exists rest, Trail sample_world (Path.components "/home/proj") rest /\
                   m = record_of (Path.components "/home/proj") rest.
Proof.
  apply (scan_finds_every_trail sample_world "/home/proj"); vm_compute; reflexivity.
Defined.

(** X9: a directory that cannot be read is skipped silently: the scan
    still returns, with no record from inside that directory; when the
    root itself cannot be read the result is empty. *)
Theorem scan_skips_unreadable_directories w rootPath :
  wf_world w = true -> Path.isResolved rootPath = true ->
  exists results,
    scan w rootPath = Some results /\
    (forall e, readdirSync w rootPath = Thrown e -> results = []) /\
    (forall dir e,
       Path.isResolved dir = true ->
       dir = rootPath \/ Path.isStrictDescendant rootPath dir = true ->
       readdirSync w dir = Thrown e ->
       forall m, In m results -> Path.isStrictDescendant dir (m_path m) = false).
Proof.
  intros Hwf Hres.
  destruct (scan_results w rootPath Hwf Hres) as (rc & results & Hc & -> & Hs & Hall).
  exists results. split; [exact Hs|]. split.
  - intros e He. unfold scan in Hs. simpl in Hs. rewrite He in Hs. congruence.
  - intros dir e Hd Hbelow He m Hin.
    destruct (below_root rc dir Hc Hd Hbelow) as (pre & Hpre & ->).
    destruct (Hall m Hin) as (rest & T & Hrest & ->). simpl.
    destruct (Path.isStrictDescendant (Path.render (rc ++ pre)) (Path.render (rc ++ rest)))
      eqn:E; [|reflexivity]. exfalso.
    apply isStrictDescendant_render in E as (x & more & E);
      [|apply Forall_app; split; assumption..].
    rewrite <- app_assoc in E. apply app_inv_head in E.
    destruct (Trail_inside w rc rest T pre x more E) as (_ & (entries & Hrd & _) & _).
    congruence.
Qed.

Lemma scan_skips_unreadable_directories_witness :
  exists results,
    scan locked_world "/proj/dist/assets/app.js" = Some results /\
    (forall e, readdirSync locked_world "/proj/dist/assets/app.js" = Thrown e -> results = []).
Proof.
  destruct (scan_skips_unreadable_directories locked_world "/proj/dist/assets/app.js")
    as (results & Hs & He & _); [vm_compute; reflexivity..|].
  exists results. split; assumption.
Defined.

Lemma lookup_unique n comps m :
  unique_names n = true -> lookup n comps = Returned m -> unique_names m = true.
Proof.
  revert n. induction comps as [|c cs IH]; intros n Hu; simpl.
  - intros [= <-]. exact Hu.
  - destruct n as [sz|[|]|p es]; try discriminate.
    destruct (p_x p); [|discriminate].
    destruct (find_entry c es) as [ch|] eqn:E; [|discriminate].
    apply IH. apply (find_entry_unique p es c ch Hu E).
Qed.

Lemma readdir_names_unique w comps entries :
  unique_names (root w) = true -> plains comps ->
  readdirSync w (Path.render comps) = Returned entries ->
  NoDup (map d_name entries).
Proof.
  intros Hu Hc Hrd.
  destruct (readdir_render _ _ _ Hc Hrd) as (p & es & Hl & _ & ->).
  apply (lookup_unique _ _ _ Hu) in Hl. apply unique_names_dir in Hl as [Hnd _].
  rewrite map_map. exact Hnd.
Qed.

Lemma through_distinct comps nm nm' m m' :
  plains comps -> nm <> nm' ->
  through comps nm m -> through comps nm' m' -> m_path m <> m_path m'.
Proof.
  intros Hc Hne (r & Hr & E) (r' & Hr' & E') Heq. rewrite E, E' in Heq.
  apply render_inj in Heq; [|apply Forall_app; split; assumption..].
  apply app_inv_head in Heq. congruence.
Qed.

Section Distinct.
Variable w : world.
Hypothesis Hwf : wf_world w = true.
Hypothesis Hu : unique_names (root w) = true.

Lemma walk_entries_distinct walk_rec comps all_entries :
  plains comps ->
  readdirSync w (Path.render comps) = Returned all_entries ->
  (forall nm acc out, Path.plain nm = true ->
     walk_rec (Path.render (comps ++ [nm])) acc = Some out ->
     exists new, out = acc ++ new /\ NoDup (map m_path new) /\
       Forall (on_trail w (comps ++ [nm])) new) ->
  forall entries acc out,
  (forall e, In e entries -> In e all_entries) ->
  NoDup (map d_name entries) ->
  walk_entries w walk_rec (Path.render comps) entries acc = Some out ->
  exists new, out = acc ++ new /\ NoDup (map m_path new) /\
    Forall (fun m => exists nm, In nm (map d_name entries) /\ through comps nm m) new.
Proof.
  intros Hc Hrd Hrec. induction entries as [|e entries IH]; intros acc out Hsub Hnd; simpl.
  - intros [= <-]. exists []. split; [symmetry; apply app_nil_r|].
    split; constructor.
  - assert (Hsub' : forall e', In e' entries -> In e' all_entries)
      by (intros; apply Hsub; right; assumption).
    simpl in Hnd. apply NoDup_cons in Hnd as [Hnotin Hnd'].
    assert (Hweak : forall acc0,
              walk_entries w walk_rec (Path.render comps) entries acc0 = Some out ->
              exists new, out = acc0 ++ new /\ NoDup (map m_path new) /\
                Forall (fun m => exists nm, In nm (d_name e :: map d_name entries)
                                            /\ through comps nm m) new).
    { intros acc0 H. destruct (IH _ _ Hsub' Hnd' H) as (new & -> & Hn & Hall).
      exists new. repeat split; auto. eapply Forall_impl; [exact Hall|].
      intros m (nm & Hnm & Ht). exists nm. split; [right|]; assumption. }
    destruct (isDirectory e) eqn:Hd; simpl; [|apply Hweak].
    destruct (has SKIP_DIRS (d_name e)) eqn:Hs; [apply Hweak|].
    assert (Hin : In e all_entries) by (apply Hsub; left; reflexivity).
    pose proof (readdir_entry _ _ _ _ Hwf Hc Hrd Hin) as Hpl.
    rewrite (join_render _ _ Hc Hpl).
    assert (Hfresh : forall m m', through comps (d_name e) m ->
              (exists nm, In nm (map d_name entries) /\ through comps nm m') ->
              m_path m <> m_path m').
    { intros m m' Hm (nm & Hnm & Hm'). apply (through_distinct comps (d_name e) nm); auto.
      intros <-. apply Hnotin, list_elem_of_In, Hnm. }
    destruct (isTargetMatch w (d_name e) (Path.render comps)) eqn:Hm.
    + intros H. destruct (IH _ _ Hsub' Hnd' H) as (new & -> & Hn & Hall).
      set (m0 := mkMatch (d_name e) (Path.render (comps ++ [d_name e])) 0).
      assert (Hm0 : through comps (d_name e) m0)
        by (exists []; split; [repeat constructor; exact Hpl | reflexivity]).
      exists (m0 :: new). split; [unfold push; rewrite <- app_assoc; reflexivity|]. split.
      * simpl. apply NoDup_cons. split; [|exact Hn].
        intros Hx. apply list_elem_of_In, in_map_iff in Hx as (m' & Heq & Hm').
        rewrite List.Forall_forall in Hall.
        apply (Hfresh m0 m' Hm0 (Hall m' Hm')). symmetry. exact Heq.
      * constructor; [exists (d_name e); split; [left; reflexivity | exact Hm0]|].
        eapply Forall_impl; [exact Hall|].
        intros m (nm & Hnm & Ht). exists nm. split; [right|]; assumption.
    + destruct (has TARGET_NAMES (d_name e)) eqn:Ht; [apply Hweak|].
      destruct (walk_rec _ acc) as [acc'|] eqn:E; [|discriminate].
      intros H. destruct (IH _ _ Hsub' Hnd' H) as (new & -> & Hn & Hall).
      destruct (Hrec _ _ _ Hpl E) as (new' & -> & Hn' & Hall').
      assert (Hthrough : Forall (through comps (d_name e)) new').
      { eapply Forall_impl; [exact Hall'|]. intros m (rest & T & ->).
        exists rest. split.
        - constructor; [exact Hpl|].
          apply (Trail_plain w _ rest Hwf (plains_snoc _ _ Hc Hpl) T).
        - simpl. rewrite <- app_assoc. reflexivity. }
      exists (new' ++ new). split; [rewrite <- app_assoc; reflexivity|]. split.
      * rewrite map_app. apply NoDup_app. split; [exact Hn'|]. split; [|exact Hn].
        intros x Hx Hx'.
        apply list_elem_of_In, in_map_iff in Hx as (m & <- & Hm1).
        apply list_elem_of_In, in_map_iff in Hx' as (m' & Heq & Hm2).
        rewrite List.Forall_forall in Hall, Hthrough.
        apply (Hfresh m m' (Hthrough m Hm1) (Hall m' Hm2)). symmetry. exact Heq.
      * apply Forall_app. split.
        -- eapply Forall_impl; [exact Hthrough|].
           intros m Hm1. exists (d_name e). split; [left; reflexivity | exact Hm1].
        -- eapply Forall_impl; [exact Hall|].
           intros m (nm & Hnm & Ht'). exists nm. split; [right|]; assumption.
Qed.

Lemma walk_distinct fuel : forall comps acc out,
  plains comps ->
  walk w fuel (Path.render comps) acc = Some out ->
  exists new, out = acc ++ new /\ NoDup (map m_path new) /\
    Forall (on_trail w comps) new.
Proof.
  induction fuel as [|fuel IH]; intros comps acc out Hc; simpl; [discriminate|].
  destruct (readdirSync w (Path.render comps)) as [entries|e] eqn:Hrd.
  - intros H.
    destruct (walk_entries_sound w Hwf _ _ entries Hc Hrd
                (fun nm acc0 out0 Hn E =>
                   match IH _ acc0 out0 (plains_snoc _ _ Hc Hn) E with
                   | ex_intro _ new (conj E1 (conj _ E3)) => ex_intro _ new (conj E1 E3)
                   end) entries acc out (fun e H => H) H) as (new & -> & Hall).
    destruct (walk_entries_distinct _ _ entries Hc Hrd
                (fun nm acc0 out0 Hn E => IH _ acc0 out0 (plains_snoc _ _ Hc Hn) E)
                entries acc _ (fun e H => H)
                (readdir_names_unique w comps entries Hu Hc Hrd) H)
      as (new' & E' & Hn & _).
    apply app_inv_head in E'. subst new'. eauto.
  - intros [= <-]. exists []. split; [symmetry; apply app_nil_r|].
    split; constructor.
Qed.

End Distinct.

(** X10: in a tree without duplicate names, no path is reported
    twice by a scan. *)
Theorem scan_reports_each_path_once w rootPath :
  wf_world w = true -> unique_names (root w) = true ->
  Path.isResolved rootPath = true ->
  exists results,
    scan w rootPath = Some results /\ NoDup (map m_path results).
Proof.
  intros Hwf Hu Hres.
  destruct (scan_results w rootPath Hwf Hres) as (rc & results & Hc & -> & Hs & _).
  exists results. split; [exact Hs|].
  destruct (walk_distinct w Hwf Hu _ rc [] results Hc Hs) as (new & E & Hn & _).
  simpl in E. subst new. exact Hn.
Qed.

Lemma scan_reports_each_path_once_witness :
  exists results,
    scan sample_world "/home/proj" = Some results /\ NoDup (map m_path results).
Proof.
  apply (scan_reports_each_path_once sample_world "/home/proj"); vm_compute; reflexivity.
Defined.

(** ** Arguments *)

Lemma parseArg_cases args arg :
  parseArg args arg =
  mkArgs (if negb (startsWithDash arg) then Some arg else a_path args)
         (dryRun args || is_flag "-d" "--dry-run" arg)
         (yes args || is_flag "-y" "--yes" arg)
         (version args || is_flag "-v" "--version" arg)
         (help args || is_flag "-h" "--help" arg).
Proof.
  unfold parseArg, is_flag. destruct args as [p d y v h]. simpl.
  destruct (String.eqb_spec arg "-d") as [->|H1]; [simpl; rewrite !orb_true_r, !orb_false_r; reflexivity|].
  destruct (String.eqb_spec arg "--dry-run") as [->|H2]; [simpl; rewrite !orb_true_r, !orb_false_r; reflexivity|].
  destruct (String.eqb_spec arg "-y") as [->|H3]; [simpl; rewrite !orb_true_r, !orb_false_r; reflexivity|].
  destruct (String.eqb_spec arg "--yes") as [->|H4]; [simpl; rewrite !orb_true_r, !orb_false_r; reflexivity|].
  destruct (String.eqb_spec arg "-v") as [->|H5]; [simpl; rewrite !orb_true_r, !orb_false_r; reflexivity|].
  destruct (String.eqb_spec arg "--version") as [->|H6]; [simpl; rewrite !orb_true_r, !orb_false_r; reflexivity|].
  destruct (String.eqb_spec arg "-h") as [->|H7]; [simpl; rewrite !orb_true_r, !orb_false_r; reflexivity|].
  destruct (String.eqb_spec arg "--help") as [->|H8]; [simpl; rewrite !orb_true_r, !orb_false_r; reflexivity|].
  simpl. rewrite !orb_false_r. destruct (startsWithDash arg); reflexivity.
Qed.

Lemma fold_parseArg l : forall args,
  fold_left parseArg l args =
  mkArgs (match last (List.filter (fun a => negb (startsWithDash a)) l) with
          | Some p => Some p
          | None => a_path args
          end)
         (dryRun args || existsb (is_flag "-d" "--dry-run") l)
         (yes args || existsb (is_flag "-y" "--yes") l)
         (version args || existsb (is_flag "-v" "--version") l)
         (help args || existsb (is_flag "-h" "--help") l).
Proof.
  induction l as [|a l IH]; intros args.
  - simpl. rewrite !orb_false_r. destruct args; reflexivity.
  - cbn [fold_left]. rewrite IH, parseArg_cases. cbn [a_path dryRun yes version help existsb].
    rewrite !orb_assoc. f_equal.
    cbn [List.filter]. destruct (negb (startsWithDash a)); [|reflexivity].
    destruct (List.filter _ l) as [|x xs] eqn:E; [reflexivity|].
    change (last (a :: x :: xs)) with (last (x :: xs)).
    destruct (last (x :: xs)) eqn:E'; [reflexivity|].
    apply last_None in E'. discriminate.
Qed.

(** X11: [parseArgs] looks at the arguments from the third on: each
    flag is set exactly when one of its two spellings occurs, and the path
    is the last argument that does not start with a dash ([null] when
    there is none). *)
Theorem parseArgs_reads_flags_and_last_path argv :
  parseArgs argv =
  mkArgs (last (List.filter (fun a => negb (startsWithDash a)) (drop 2 argv)))
         (existsb (is_flag "-d" "--dry-run") (drop 2 argv))
         (existsb (is_flag "-y" "--yes") (drop 2 argv))
         (existsb (is_flag "-v" "--version") (drop 2 argv))
         (existsb (is_flag "-h" "--help") (drop 2 argv)).
Proof.
  unfold parseArgs. rewrite fold_parseArg. simpl.
  destruct (last _); reflexivity.
Qed.

Lemma parseArg_unknown args opt :
  startsWithDash opt = true ->
  ~ In opt ["-d"; "--dry-run"; "-y"; "--yes"; "-v"; "--version"; "-h"; "--help"] ->
  parseArg args opt = args.
Proof.
  intros Hd Hn. rewrite parseArg_cases, Hd. unfold is_flag. simpl in Hn.
  repeat match goal with
         | |- context [String.eqb opt ?s] =>
             destruct (String.eqb_spec opt s) as [->|_]; [exfalso; apply Hn; tauto|]
         end.
  simpl. rewrite !orb_false_r. destruct args; reflexivity.
Qed.

(** X12: an argument that starts with a dash and is none of the
    eight options is ignored: [parseArgs] answers as if it were absent
    (so a misspelt [--dryrun] does not turn the dry run on). *)
Theorem parseArgs_ignores_unknown_options opt before after :
  startsWithDash opt = true ->
  ~ In opt ["-d"; "--dry-run"; "-y"; "--yes"; "-v"; "--version"; "-h"; "--help"] ->
  (2 <= length before)%nat ->
  parseArgs (before ++ opt :: after) = parseArgs (before ++ after).
Proof.
  intros Hd Hn Hlen. unfold parseArgs.
  rewrite !drop_app_le by exact Hlen.
  rewrite !fold_left_app. cbn [fold_left].
  rewrite (parseArg_unknown _ opt Hd Hn). reflexivity.
Qed.

Lemma parseArgs_ignores_unknown_options_witness :
  parseArgs (["node"; "free-dev-space"; "proj"] ++ "--dryrun" :: ["-y"]) =
  parseArgs (["node"; "free-dev-space"; "proj"] ++ ["-y"]).
Proof.
  apply (parseArgs_ignores_unknown_options "--dryrun" ["node"; "free-dev-space"; "proj"] ["-y"]);
    [reflexivity | | simpl; lia].
  simpl. intros H. repeat (destruct H as [H | H]; [discriminate H|]). exact H.
Defined.

(** ** Sizes and order *)

Lemma insert_by_size_perm r l : Permutation (r :: l) (insert_by_size r l).
Proof.
  induction l as [|x l IH]; simpl; [reflexivity|].
  destruct (m_size r <? m_size x)%Z; [|reflexivity].
  rewrite <- IH. apply perm_swap.
Qed.

Lemma sort_by_size_perm l : Permutation l (sort_by_size l).
Proof.
  induction l as [|r l IH]; simpl; [reflexivity|].
  rewrite <- insert_by_size_perm. constructor. exact IH.
Qed.

Lemma insert_by_size_sorted r l :
  StronglySorted larger_first l -> StronglySorted larger_first (insert_by_size r l).
Proof.
  induction 1 as [|x l Hs IH Hx]; simpl; [repeat constructor|].
  destruct (m_size r <? m_size x)%Z eqn:E.
  - apply Z.ltb_lt in E. constructor; [exact IH|].
    rewrite List.Forall_forall in *. intros y Hy.
    apply (Permutation_in _ (Permutation_sym (insert_by_size_perm r l))) in Hy.
    destruct Hy as [<- | Hy]; [unfold larger_first; lia | apply Hx, Hy].
  - apply Z.ltb_ge in E. constructor; [constructor; assumption|].
    constructor; [exact E|].
    rewrite List.Forall_forall in *. intros y Hy. specialize (Hx y Hy).
    unfold larger_first in *. lia.
Qed.

Lemma insert_by_size_stable z r l :
  List.filter (fun m => (m_size m =? z)%Z) (insert_by_size r l) =
  List.filter (fun m => (m_size m =? z)%Z) (r :: l).
Proof.
  induction l as [|x l IH]; [reflexivity|]. simpl in *.
  destruct (m_size r <? m_size x)%Z eqn:E; [|reflexivity].
  apply Z.ltb_lt in E. simpl. rewrite IH.
  destruct (Z.eqb_spec (m_size x) z), (Z.eqb_spec (m_size r) z); try reflexivity. lia.
Qed.

Lemma totalSize_from results : forall z,
  fold_left (fun sum r => (sum + m_size r)%Z) results z = (z + totalSize results)%Z.
Proof.
  unfold totalSize. induction results as [|r rs IH]; intros z; simpl; [lia|].
  rewrite (IH (z + m_size r)%Z), (IH (0 + m_size r)%Z). lia.
Qed.

Lemma totalSize_cons r rs : totalSize (r :: rs) = (m_size r + totalSize rs)%Z.
Proof. unfold totalSize at 1. simpl. apply totalSize_from. Qed.

Lemma totalSize_perm l l' : Permutation l l' -> totalSize l = totalSize l'.
Proof.
  induction 1; rewrite ?totalSize_cons; lia.
Qed.

(** X13: the order in which [showResults] leaves the records: the
    same records, sizes falling, records of equal size in their old order;
    the total of the sizes is the same. *)
Theorem sort_by_size_orders_largest_first results :
  Permutation results (sort_by_size results) /\
  StronglySorted (fun a b => (m_size b <= m_size a)%Z) (sort_by_size results) /\
  (forall z, List.filter (fun m => (m_size m =? z)%Z) (sort_by_size results) =
             List.filter (fun m => (m_size m =? z)%Z) results) /\
  totalSize (sort_by_size results) = totalSize results.
Proof.
  split; [apply sort_by_size_perm|]. split; [|split].
  - induction results as [|r l IH]; simpl; [constructor|].
    apply insert_by_size_sorted, IH.
  - intros z. induction results as [|r l IH]; [reflexivity|].
    cbn [sort_by_size fold_right]. fold (sort_by_size l).
    rewrite insert_by_size_stable. simpl. rewrite IH. reflexivity.
  - symmetry. apply totalSize_perm, sort_by_size_perm.
Qed.

(** ** Further properties of the deletion *)

Lemma similar_refl n : similar n n.
Proof. destruct n; reflexivity. Qed.

Lemma similar_trans a b c : similar a b -> similar b c -> similar a c.
Proof. destruct a, b, c; simpl; congruence. Qed.

Lemma same_answer_refl o : same_answer o o.
Proof. destruct o; simpl; [apply similar_refl | reflexivity]. Qed.

Lemma same_answer_trans a b c : same_answer a b -> same_answer b c -> same_answer a c.
Proof.
  destruct a, b, c; simpl; try contradiction; try congruence.
  apply similar_trans.
Qed.

Lemma remove_at_frame cp : forall n o n',
  remove_at n cp = (o, n') ->
  forall cq, ~ (exists rest, cq = cp ++ rest) ->
  same_answer (lookup n cq) (lookup n' cq).
Proof.
  induction cp as [|c cs IH]; intros n o n' R cq Hout.
  - simpl in R. injection R as _ <-. apply same_answer_refl.
  - simpl in R.
    assert (Hsame : forall o0, (o0, n) = (o, n') -> same_answer (lookup n cq) (lookup n' cq))
      by (intros o0 [= _ <-]; apply same_answer_refl).
    destruct n as [sz|[|]|p es]; try (apply (Hsame _ R)).
    destruct (p_x p) eqn:Hx; [|apply (Hsame _ R)].
    destruct (find_entry c es) as [ch|] eqn:E; [|apply (Hsame _ R)].
    assert (Hne : forall d ds es',
              cq = d :: ds -> d <> c ->
              (forall d', d' <> c -> find_entry d' es' = find_entry d' es) ->
              same_answer (lookup (Dir p es) cq) (lookup (Dir p es') cq)).
    { intros d ds es' -> Hd Hf. cbn [lookup]. rewrite Hx, (Hf d Hd).
      apply same_answer_refl. }
    destruct cs as [|c' cs'].
    + destruct (p_w p); [|apply (Hsame _ R)].
      destruct cq as [|d ds]; [destruct (rimraf ch); injection R as _ <-; reflexivity|].
      assert (Hd : d <> c) by (intros ->; apply Hout; exists ds; reflexivity).
      destruct (rimraf ch) as [ch'|]; injection R as _ <-; apply (Hne d ds); auto.
      * intros d' Hd'. apply find_replace_entry_ne, Hd'.
      * intros d' Hd'. apply find_remove_entry_ne, Hd'.
    + destruct (remove_at ch (c' :: cs')) as [o' ch'] eqn:R'. injection R as _ <-.
      destruct cq as [|d ds]; [reflexivity|].
      destruct (String.eqb_spec d c) as [->|Hd].
      * cbn [lookup]. rewrite Hx, E, (find_replace_entry _ _ _ _ E).
        apply (IH _ _ _ R'). intros [rest ->]. apply Hout. exists rest. reflexivity.
      * apply (Hne d ds); auto. intros d' Hd'. apply find_replace_entry_ne, Hd'.
Qed.

Lemma rmSync_cwd w p : cwd (snd (rmSync w p)) = cwd w.
Proof.
  unfold rmSync. destruct (String.eqb p ""); [reflexivity|].
  destruct (remove_at _ _). reflexivity.
Qed.

Lemma rmSync_frame w p q :
  ~ (exists rest, Path.resolve_segs (cwd w) q = Path.resolve_segs (cwd w) p ++ rest) ->
  same_answer (lstat w q) (lstat (snd (rmSync w p)) q).
Proof.
  intros Hout. unfold rmSync. destruct (String.eqb p ""); [apply same_answer_refl|].
  destruct (remove_at (root w) _) as [o n'] eqn:R. unfold lstat. simpl.
  destruct (String.eqb q ""); [reflexivity|].
  apply (remove_at_frame _ _ _ _ R _ Hout).
Qed.

Lemma same_answer_access w w' q :
  same_answer (lstat w q) (lstat w' q) ->
  accessSync w' q = accessSync w q /\ statSync w' q = statSync w q.
Proof.
  unfold accessSync, statSync.
  destruct (lstat w q) as [n|e], (lstat w' q) as [n'|e']; simpl; try contradiction.
  - destruct n as [?|[|]|? ?], n' as [?|[|]|? ?]; simpl; intros H;
      try discriminate H; auto.
  - intros ->. auto.
Qed.

Lemma outside_segs cwd0 p q :
  Path.isResolved p = true -> Path.isResolved q = true -> outside p q ->
  ~ (exists rest, Path.resolve_segs cwd0 q = Path.resolve_segs cwd0 p ++ rest).
Proof.
  intros Hp Hq [Hne Hd] [rest E].
  apply isResolved_spec in Hp as (cp & Hcp & ->).
  apply isResolved_spec in Hq as (cq & Hcq & ->).
  rewrite !resolve_segs_render in E by assumption. subst cq.
  destruct rest as [|x more]; [rewrite app_nil_r in Hne; contradiction|].
  assert (Path.isStrictDescendant (Path.render cp) (Path.render (cp ++ x :: more)) = true)
    by (apply isStrictDescendant_render; eauto).
  congruence.
Qed.

Lemma delete_loop_frame results : forall st q,
  Path.isResolved q = true ->
  Forall (fun r => Path.isResolved (m_path r) = true /\ outside (m_path r) q) results ->
  same_answer (lstat (d_fs st) q) (lstat (d_fs (fold_left delete_one results st)) q).
Proof.
  induction results as [|r rs IH]; intros st q Hq Hall; simpl.
  - apply same_answer_refl.
  - inversion Hall as [|? ? [Hr Hout] Hrest]; subst.
    pose proof (rmSync_frame (d_fs st) (m_path r) q
                  (outside_segs _ _ _ Hr Hq Hout)) as Hf.
    unfold delete_one at 2.
    destruct (rmSync (d_fs st) (m_path r)) as [[[]|e] w']; simpl in Hf;
      (eapply same_answer_trans; [exact Hf|]).
    + apply (IH (mkDeletion w' (freed st + m_size r) (failed st) (failures st)) q Hq Hrest).
    + apply (IH (mkDeletion w' (freed st) (S (failed st))
                   (failures st ++ [(m_name r, e)])) q Hq Hrest).
Qed.

(** X14: [deleteResults] attempts every record once: [failed] counts
    the removals that threw, the others are as many as the rest of the
    batch, one failure line is printed per failure under the record's
    name, in order, and [freed] adds up the sizes of the records whose
    removal returned. *)
Theorem deleteResults_counts_every_record w results :
  let d := deleteResults w results in
  let oks := attempts w results in
  length oks = length results /\
  failed d = count_occ bool_dec oks false /\
  (failed d + count_occ bool_dec oks true = length results)%nat /\
  length (failures d) = failed d /\
  map fst (failures d) = failed_names results oks /\
  freed d = freed_bytes results oks.
Proof.
  unfold deleteResults.
  destruct (delete_loop results (mkDeletion w 0 0 [])) as (H1 & H2 & H3 & H4).
  pose proof (delete_loop_names results (mkDeletion w 0 0 [])) as H5.
  pose proof (count_occ_bool (attempts w results)) as H6.
  simpl in *. repeat split; auto; lia.
Qed.

Lemma freed_bytes_all_true results oks :
  length oks = length results -> count_occ bool_dec oks false = 0%nat ->
  freed_bytes results oks = totalSize results.
Proof.
  revert oks. induction results as [|r rs IH]; intros [|ok oks]; simpl; try discriminate.
  - reflexivity.
  - intros Hlen Hc. rewrite totalSize_cons. destruct ok; simpl in Hc; [|discriminate].
    rewrite IH; [reflexivity | lia | exact Hc].
Qed.

(** X15: when no removal fails, [freed] is the total that
    [showResults] has shown, no failure is printed, and none of the
    records' paths names anything afterwards. *)
Theorem deleteResults_frees_the_total_when_nothing_fails w results :
  unique_names (root w) = true ->
  failed (deleteResults w results) = 0%nat ->
  freed (deleteResults w results) = totalSize results /\
  failures (deleteResults w results) = [] /\
  forall r, In r results -> lstat (d_fs (deleteResults w results)) (m_path r) = Thrown ENOENT.
Proof.
  intros Hu Hf. unfold deleteResults in *.
  destruct (delete_loop results (mkDeletion w 0 0 [])) as (H1 & H2 & H3 & H4).
  destruct (delete_loop_gone results (mkDeletion w 0 0 []) Hu) as (_ & _ & H5).
  simpl in *. rewrite Hf in H1. split; [|split].
  - rewrite H3. apply freed_bytes_all_true; [exact H4 | lia].
  - apply length_zero_iff_nil. lia.
  - intros r Hin. apply list_elem_of_In, list_elem_of_lookup in Hin as [i Hi].
    apply (H5 i r Hi).
    destruct (attempts w results !! i) as [[|]|] eqn:Ha; [reflexivity| |].
    + exfalso. apply list_elem_of_lookup_2, list_elem_of_In in Ha.
      apply (count_occ_In bool_dec) in Ha. lia.
    + apply lookup_ge_None in Ha. apply lookup_lt_Some in Hi. lia.
Qed.

Lemma deleteResults_frees_the_total_when_nothing_fails_witness :
  freed (deleteResults sample_world [mkMatch "Pods" "/home/proj/ios/Pods" 512]) =
    totalSize [mkMatch "Pods" "/home/proj/ios/Pods" 512] /\
  failures (deleteResults sample_world [mkMatch "Pods" "/home/proj/ios/Pods" 512]) = [] /\
  forall r, In r [mkMatch "Pods" "/home/proj/ios/Pods" 512] ->
    lstat (d_fs (deleteResults sample_world [mkMatch "Pods" "/home/proj/ios/Pods" 512]))
      (m_path r) = Thrown ENOENT.
Proof.
  apply (deleteResults_frees_the_total_when_nothing_fails sample_world
           [mkMatch "Pods" "/home/proj/ios/Pods" 512]); vm_compute; reflexivity.
Defined.



(** ** Properties of the size calculation *)

Example parseInt10_ex :
  parseInt10 (before_tab ("2048" +:+ String "009"%char "/home/proj/node_modules")) = Some 2048%Z
  /\ parseInt10 "" = None /\ parseInt10 " 12abc" = Some 12%Z /\ parseInt10 "-7" = Some (-7)%Z
  /\ parseInt10 "du: cannot" = None.
Proof. repeat split; reflexivity. Qed.

Example to_double_ex :
  to_double 9007199254740993 = 9007199254740992%Z /\
  to_double 9007199254740995 = 9007199254740996%Z /\
  to_double (-9007199254740995) = (-9007199254740996)%Z /\
  to_double 36028797018963971 = 36028797018963968%Z /\
  to_double (2 ^ 63) = (2 ^ 63)%Z.
Proof. repeat split; reflexivity. Qed.

Example du_size_rounds :
  du_size false
    (fun w _ => (Returned ("9007199254740993" +:+ String "009"%char "/home/proj"), w))
    sample_world "/home/proj" = (Some (2 ^ 63)%Z, sample_world).
Proof. vm_compute. reflexivity. Qed.

Lemma to_double_small z : (Z.abs z < 2 ^ 53)%Z -> to_double z = z.
Proof.
  intros H. unfold to_double. cbv zeta. apply Z.ltb_lt in H. rewrite H. reflexivity.
Qed.

Section SizeAlone.
Variable win32 : bool.
Variable execSync : world -> string -> outcome string * world.
Variable w : world.
Hypothesis Hq : leaves_alone execSync w.

Lemma du_size_alone p : snd (du_size win32 execSync w p) = w.
Proof.
  unfold du_size. destruct (negb win32); [|reflexivity].
  pose proof (Hq (du_command p)) as H.
  destruct (execSync w (du_command p)) as [[output|e] w']; exact H.
Qed.

Lemma size_entries_alone rec dirPath :
(forall p r, rec w p = Some r -> snd r = w) ->
forall entries total r,
size_entries rec w dirPath entries total = Some r -> snd r = w.
Proof.
  intros Hrec. induction entries as [|e entries IH]; intros total r; simpl.
  - intros [= <-]. reflexivity.
  - destruct (isSymbolicLink e); [apply IH|].
    destruct (isFile e); [destruct (statSize w _); apply IH|].
    destruct (isDirectory e); [|apply IH].
    destruct (rec w _) as [[sz w']|] eqn:E; [|discriminate].
    apply Hrec in E. simpl in E. subst w'. apply IH.
Qed.

Lemma getDirSize_upto_alone fuel : forall p r,
getDirSize_upto win32 execSync fuel w p = Some r -> snd r = w.
Proof.
  induction fuel as [|fuel IH]; intros p r; simpl; [discriminate|].
  pose proof (du_size_alone p) as Hd.
  destruct (du_size win32 execSync w p) as [[sz|] w']; simpl in Hd; subst w'.
  - intros [= <-]. reflexivity.
  - destruct (readdirSync w p) as [entries|e]; [|intros [= <-]; reflexivity].
    apply size_entries_alone. exact IH.
Qed.

Lemma computeSizes_alone results : forall r,
computeSizes win32 execSync w results = Some r -> snd r = w.
Proof.
  induction results as [|m results IH]; intros r; simpl.
  - intros [= <-]. reflexivity.
  - destruct (getDirSize win32 execSync w (m_path m)) as [[sz w1]|] eqn:E; [|discriminate].
    apply getDirSize_upto_alone in E. simpl in E. subst w1.
    destruct (computeSizes win32 execSync w results) as [[rest' w2]|]; [|discriminate].
    intros [= <-]. apply (IH _ eq_refl).
Qed.

Hypothesis Hwf : wf_world w = true.

Lemma size_entries_total rec comps p es :
plains comps ->
lookup (root w) comps = Returned (Dir p es) ->
(forall nm ch, In (nm, ch) es -> Path.plain nm = true ->
   exists sz, rec w (Path.render (comps ++ [nm])) = Some (sz, w)) ->
forall entries total,
(forall e, In e entries -> exists ch, In (d_name e, ch) es) ->
exists sz, size_entries rec w (Path.render comps) entries total = Some (sz, w).
Proof.
  intros Hc Hl Hrec. induction entries as [|e entries IH]; intros total Hsub; simpl.
  - eauto.
  - assert (Hsub' : forall e', In e' entries -> exists ch, In (d_name e', ch) es)
      by (intros; apply Hsub; right; assumption).
    destruct (isSymbolicLink e); [apply IH, Hsub'|].
    destruct (isFile e); [destruct (statSize w _); apply IH, Hsub'|].
    destruct (isDirectory e); [|apply IH, Hsub'].
    destruct (Hsub e (or_introl eq_refl)) as [ch Hin].
    pose proof (lookup_wf _ _ _ Hwf Hl) as Hwfd.
    destruct (wf_node_entry _ _ _ _ Hwfd Hin) as [Hpl _].
    rewrite (join_render _ _ Hc Hpl).
    destruct (Hrec _ _ Hin Hpl) as [sz ->]. apply IH, Hsub'.
Qed.

Lemma getDirSize_upto_total fuel : forall comps,
plains comps ->
(forall n, lookup (root w) comps = Returned n -> (height n < fuel)%nat) ->
(0 < fuel)%nat ->
exists sz, getDirSize_upto win32 execSync fuel w (Path.render comps) = Some (sz, w).
Proof.
  induction fuel as [|fuel IH]; intros comps Hc Hh Hpos; [lia|]. simpl.
  pose proof (du_size_alone (Path.render comps)) as Hd.
  destruct (du_size win32 execSync w _) as [[sz|] w']; simpl in Hd; subst w'; [eauto|].
  destruct (readdirSync w (Path.render comps)) as [entries|e] eqn:Hrd; [|eauto].
  destruct (readdir_render _ _ _ Hc Hrd) as (p & es & Hl & Hr & ->).
  specialize (Hh _ Hl).
  apply (size_entries_total _ _ p es Hc Hl).
  - intros nm ch Hin Hpl.
    pose proof (height_entry p es nm ch Hin) as Hlt.
    apply IH; [apply plains_snoc; assumption | | lia].
    intros n. rewrite lookup_snoc, Hl. simpl.
    destruct (p_x p); [|discriminate].
    destruct (find_entry nm es) as [ch'|] eqn:E; [|discriminate].
    intros [= <-]. apply find_entry_In in E.
    pose proof (height_entry p es nm ch' E). lia.
  - intros e Hin. apply in_map_iff in Hin as ([nm ch] & <- & Hin). simpl. eauto.
Qed.

Lemma getDirSize_total p :
Path.isResolved p = true ->
exists sz, getDirSize win32 execSync w p = Some (sz, w).
Proof.
  intros Hres. apply isResolved_spec in Hres as (comps & Hc & ->).
  apply getDirSize_upto_total; [exact Hc | | lia].
  intros n Hl. apply lookup_height in Hl. lia.
Qed.

Lemma getDirSize_sizeOf p :
Path.isResolved p = true ->
getDirSize win32 execSync w p = Some (sizeOf win32 execSync w p, w).
Proof.
  intros Hres. destruct (getDirSize_total p Hres) as [sz E].
  unfold sizeOf. rewrite E. reflexivity.
Qed.

Lemma computeSizes_sized found :
Forall (fun m => Path.isResolved (m_path m) = true) found ->
computeSizes win32 execSync w found = Some (sized win32 execSync w found, w).
Proof.
  induction 1 as [|m found Hm _ IH]; simpl; [reflexivity|].
  rewrite (getDirSize_sizeOf _ Hm), IH. reflexivity.
Qed.

End SizeAlone.

Section SizeFallback.
Variable win32 : bool.
Variable execSync : world -> string -> outcome string * world.
Variable w : world.
Hypothesis Hwf : wf_world w = true.
Hypothesis Hu : unique_names (root w) = true.
Hypothesis Hdu : forall p, du_size win32 execSync w p = (None, w).

Lemma find_entry_of_In nm ch es :
NoDup (map fst es) -> In (nm, ch) es -> find_entry nm es = Some ch.
Proof.
  induction es as [|[nm' ch'] es IH]; simpl; [intros _ []|].
  rewrite NoDup_cons. intros [Hnotin Hnd] [[= -> ->] | Hin].
  - rewrite String.eqb_refl. reflexivity.
  - destruct (String.eqb_spec nm' nm) as [->|_]; [|apply IH; assumption].
    exfalso. apply Hnotin, list_elem_of_In. apply (in_map fst _ _ Hin).
Qed.

Lemma size_entries_fallback rec comps p es :
plains comps ->
lookup (root w) comps = Returned (Dir p es) ->
(forall nm p' es', In (nm, Dir p' es') es ->
   rec w (Path.render (comps ++ [nm])) =
   Some (if p_x p then files_total (Dir p' es') else 0%Z, w)) ->
forall rest total,
(forall e, In e rest -> In e es) ->
size_entries rec w (Path.render comps)
  (map (fun e => mkDirent (fst e) (kind_of (snd e))) rest) total =
Some ((total +
       fold_right
         (fun e acc =>
            (match snd e with
             | File sz => if p_x p then sz else 0
             | Symlink _ => 0
             | Dir _ _ => if p_x p then files_total (snd e) else 0
             end + acc)%Z) 0%Z rest)%Z, w).
Proof.
  intros Hc Hl Hrec.
  pose proof (lookup_wf _ _ _ Hwf Hl) as Hwfd.
  pose proof (lookup_unique _ _ _ Hu Hl) as Hud.
  apply unique_names_dir in Hud as [Hnd _].
  induction rest as [|[nm ch] rest IH]; intros total Hsub; simpl.
  - do 2 f_equal. lia.
  - assert (Hin : In (nm, ch) es) by (apply Hsub; left; reflexivity).
    assert (Hsub' : forall e, In e rest -> In e es)
      by (intros; apply Hsub; right; assumption).
    destruct (wf_node_entry _ _ _ _ Hwfd Hin) as [Hpl _].
    pose proof (find_entry_of_In _ _ _ Hnd Hin) as Hf.
    destruct ch as [sz|b|p' es']; unfold isSymbolicLink, isFile, isDirectory; simpl.
    + unfold statSize. rewrite (lstat_child _ _ _ Hc Hpl), Hl. simpl.
      destruct (p_x p) eqn:Hx; [rewrite Hf|]; rewrite IH by exact Hsub'; do 2 f_equal;
        cbn iota; ring.
    + rewrite IH by exact Hsub'. reflexivity.
    + rewrite (join_render _ _ Hc Hpl), (Hrec _ _ _ Hin).
      rewrite IH by exact Hsub'. do 2 f_equal. destruct (p_x p); cbn iota;
        rewrite Z.add_assoc; reflexivity.
Qed.

Lemma getDirSize_upto_fallback fuel : forall comps,
plains comps ->
(0 < fuel)%nat ->
(forall n, lookup (root w) comps = Returned n -> (height n < fuel)%nat) ->
getDirSize_upto win32 execSync fuel w (Path.render comps) =
Some (match lookup (root w) comps with
      | Returned n => files_total n
      | Thrown _ => 0%Z
      end, w).
Proof.
  induction fuel as [|fuel IH]; intros comps Hc Hpos Hh; [lia|]. simpl.
  rewrite Hdu. unfold readdirSync. rewrite (lstat_render _ _ Hc).
  destruct (lookup (root w) comps) as [[sz|[|]|p es]|e] eqn:Hl; try reflexivity.
  specialize (Hh _ eq_refl).
  destruct (p_r p) eqn:Hr; [|simpl; rewrite Hr; reflexivity].
  rewrite (size_entries_fallback _ comps p es Hc Hl).
  - simpl. rewrite Hr. reflexivity.
  - intros nm p' es' Hin.
    pose proof (lookup_wf _ _ _ Hwf Hl) as Hwfd.
    pose proof (lookup_unique _ _ _ Hu Hl) as Hud.
    apply unique_names_dir in Hud as [Hnd _].
    destruct (wf_node_entry _ _ _ _ Hwfd Hin) as [Hpl _].
    pose proof (height_entry p es nm _ Hin) as Hlt.
    assert (Hlk : lookup (root w) (comps ++ [nm]) =
                  if p_x p then Returned (Dir p' es') else Thrown EACCES).
    { rewrite lookup_snoc, Hl. simpl. destruct (p_x p); [|reflexivity].
      rewrite (find_entry_of_In _ _ _ Hnd Hin). reflexivity. }
    rewrite IH; [| apply plains_snoc; assumption | lia |].
    + rewrite Hlk. destruct (p_x p); reflexivity.
    + intros n. rewrite Hlk. destruct (p_x p); [|discriminate].
      intros [= <-]. lia.
  - auto.
Qed.

End SizeFallback.



(** X23: without [du] (on win32, or when it fails everywhere and
    changes nothing), in a tree without duplicate names, [getDirSize] is
    the sum of the sizes of the regular files in and below the directory,
    as far as directories can be read and searched; symbolic links are not
    counted. *)
Theorem getDirSize_fallback_adds_up_the_files win32 execSync w dirPath n :
  wf_world w = true -> unique_names (root w) = true ->
  (forall p, du_size win32 execSync w p = (None, w)) ->
  Path.isResolved dirPath = true ->
  lstat w dirPath = Returned n ->
  getDirSize win32 execSync w dirPath = Some (files_total n, w).
Proof.
  intros Hwf Hu Hdu Hres Hl. apply isResolved_spec in Hres as (comps & Hc & ->).
  rewrite (lstat_render _ _ Hc) in Hl. unfold getDirSize.
  rewrite (getDirSize_upto_fallback win32 execSync w Hwf Hu Hdu _ comps Hc); [|lia|].
  - rewrite Hl. reflexivity.
  - intros n' Hl'. apply lookup_height in Hl'. lia.
Qed.

Lemma getDirSize_fallback_adds_up_the_files_witness :
  getDirSize true no_du locked_world "/proj" = Some (1060%Z, locked_world).
Proof.
  apply (getDirSize_fallback_adds_up_the_files true no_du locked_world
           "/proj" (Dir rwx
           [("node_modules", Dir rwx [("left-pad", Dir rwx [("index.js", File 120)])]);
            ("dist", Dir rwx [("assets", Dir r_x [("app.js", File 900)])]);
            (".next", Dir rwx [("cache", File 40)])])); reflexivity.
Defined.

(** ** Further properties of [main] *)

Lemma sort_by_size_sorted l : StronglySorted larger_first (sort_by_size l).
Proof.
  induction l as [|r l IH]; simpl; [constructor|].
  apply insert_by_size_sorted, IH.
Qed.

Lemma scan_paths_resolved w rootPath found :
  wf_world w = true -> Path.isResolved rootPath = true ->
  scan w rootPath = Some found ->
  Forall (fun m => Path.isResolved (m_path m) = true) found.
Proof.
  intros Hwf Hres Hscan.
  destruct (scan_results w rootPath Hwf Hres) as (rc & results & Hc & Eq & Hs & Hall).
  rewrite Hscan in Hs. injection Hs as <-.
  apply List.Forall_forall. intros m Hm.
  destruct (Hall m Hm) as (rest & _ & Hrest & ->). simpl.
  apply isResolved_spec. exists (rc ++ rest). split; [|reflexivity].
  apply Forall_app. split; assumption.
Qed.

Lemma sized_length win32 execSync w found :
  length (sort_by_size (sized win32 execSync w found)) = length found.
Proof.
  rewrite <- (Permutation_length (sort_by_size_perm _)).
  unfold sized. apply length_map.
Qed.

Lemma sized_keys win32 execSync w found :
  Permutation (map (fun m => (m_name m, m_path m)) found)
    (map (fun m => (m_name m, m_path m)) (sort_by_size (sized win32 execSync w found))).
Proof.
  rewrite <- (Permutation_map _ (sort_by_size_perm _)).
  unfold sized. rewrite map_map. reflexivity.
Qed.

Lemma shown_records win32 execSync w found r :
  In r (sort_by_size (sized win32 execSync w found)) ->
  exists m, In m found /\ m_path r = m_path m /\ m_name r = m_name m /\
            m_size r = sizeOf win32 execSync w (m_path m).
Proof.
  intros H. apply (Permutation_in _ (Permutation_sym (sort_by_size_perm _))) in H.
  unfold sized in H. apply in_map_iff in H as (m & <- & Hm). eauto.
Qed.

Lemma shown_sizes win32 execSync w found :
  wf_world w = true -> leaves_alone execSync w ->
  Forall (fun m => Path.isResolved (m_path m) = true) found ->
  Forall (fun r => getDirSize win32 execSync w (m_path r) = Some (m_size r, w))
    (sort_by_size (sized win32 execSync w found)).
Proof.
  intros Hwf Hq Hres. apply List.Forall_forall. intros r Hr.
  destruct (shown_records _ _ _ _ _ Hr) as (m & Hm & -> & _ & ->).
  rewrite List.Forall_forall in Hres.
  apply (getDirSize_sizeOf win32 execSync w Hq Hwf _ (Hres m Hm)).
Qed.

(** The course of [main] when the commands of the sizing change nothing,
    case by case. *)
Lemma main_cases win32 execSync spreadable answer w argv :
  wf_world w = true -> leaves_alone execSync w ->
  let args := parseArgs argv in
  let targetPath := targetPath_of w args in
  exists found,
    scan w targetPath = Some found /\
    Forall (fun m => Path.isResolved (m_path m) = true) found /\
    main win32 execSync spreadable answer w argv =
    Some
      (if version args then mkRun 0 PrintedVersion w
       else if help args then mkRun 0 PrintedHelp w
       else match statSync w targetPath with
            | Thrown _ => mkRun 1 (PathNotFound targetPath) w
            | Returned KDir =>
                match found with
                | [] => mkRun 0 NothingFound w
                | _ :: _ =>
                    let results := sort_by_size (sized win32 execSync w found) in
                    if negb (spreadable (length found)) then mkRun 1 UncaughtError w
                    else if dryRun args then mkRun 0 (DryRun results) w
                    else if negb (yes args) && negb (confirms answer)
                    then mkRun 0 (Aborted results) w
                    else mkRun 0 (Deleted results (deleteResults w results))
                           (d_fs (deleteResults w results))
                end
            | Returned _ => mkRun 1 (NotADirectory targetPath) w
            end).
Proof.
  intros Hwf Hq args targetPath.
  destruct (scan_total w Hwf (Path.resolve_segs (cwd w)
              (match a_path args with
               | Some p => if String.eqb p "" then "." else p
               | None => "."
               end)) (resolve_segs_plain _ _)) as [found Hscan].
  rewrite <- resolve_render in Hscan. fold (targetPath_of w args) in Hscan.
  fold targetPath in Hscan.
  pose proof (scan_paths_resolved w targetPath found Hwf (isResolved_resolve _ _) Hscan)
    as Hres.
  exists found. split; [exact Hscan|]. split; [exact Hres|].
  unfold main. fold args. fold (targetPath_of w args). fold targetPath.
  destruct (version args); [reflexivity|]. destruct (help args); [reflexivity|].
  destruct (statSync w targetPath) as [[]|e]; try reflexivity.
  rewrite Hscan. destruct found as [|m found]; [reflexivity|].
  cbn [length Nat.eqb].
  rewrite (computeSizes_sized win32 execSync w Hq Hwf _ Hres), sized_length.
  cbv zeta. unfold confirms.
  destruct (negb (spreadable _)); [reflexivity|].
  destruct (dryRun args); [reflexivity|].
  destruct (negb (yes args) && _); reflexivity.
Qed.



(** X18: [-v]/[--version] is served before anything else, and
    [-h]/[--help] right after it: the run prints and exits with code 0
    without looking at the path or at the other options. *)
Theorem version_and_help_come_first win32 execSync spreadable answer w argv :
  (In "-v" (drop 2 argv) \/ In "--version" (drop 2 argv) ->
   main win32 execSync spreadable answer w argv = Some (mkRun 0 PrintedVersion w)) /\
  (~ In "-v" (drop 2 argv) -> ~ In "--version" (drop 2 argv) ->
   In "-h" (drop 2 argv) \/ In "--help" (drop 2 argv) ->
   main win32 execSync spreadable answer w argv = Some (mkRun 0 PrintedHelp w)).
Proof.
  unfold main, parseArgs. rewrite fold_parseArg. cbn [version help orb]. split.
  - intros H.
    assert (E : existsb (is_flag "-v" "--version") (drop 2 argv) = true).
    { apply existsb_exists. destruct H as [H | H]; eexists; (split; [exact H | reflexivity]). }
    rewrite E. reflexivity.
  - intros Hv Hv' H.
    assert (E : existsb (is_flag "-v" "--version") (drop 2 argv) = false).
    { destruct (existsb _ _) eqn:E; [|reflexivity].
      apply existsb_exists in E as (x & Hx & Hf). unfold is_flag in Hf.
      apply orb_true_iff in Hf as [Hf | Hf]; apply String.eqb_eq in Hf; subst x;
        contradiction. }
    assert (E' : existsb (is_flag "-h" "--help") (drop 2 argv) = true).
    { apply existsb_exists. destruct H as [H | H]; eexists; (split; [exact H | reflexivity]). }
    rewrite E, E'. reflexivity.
Qed.

Lemma version_and_help_come_first_witness :
  main false no_du (fun _ => true) "y" sample_world
    ["node"; "free-dev-space"; "nowhere"; "-y"; "--version"]
  = Some (mkRun 0 PrintedVersion sample_world).
Proof.
  apply (proj1 (version_and_help_come_first false no_du (fun _ => true) "y" sample_world
                  ["node"; "free-dev-space"; "nowhere"; "-y"; "--version"])).
  right. simpl. tauto.
Defined.








